(** * Insurance fraud dashboard: the query layer of [insu_streamlit.py]

    The program registers three data frames ([customers], [cntt], [claim])
    with an in-memory SQL engine and evaluates a fixed set of aggregate
    queries plus one free-text query box.  This development embeds the SQL
    text of those queries as list programs over nullable columns and proves
    the properties the specification states about them.

    Numeric model.  Integer columns and counts are [Z] (COUNT is a 64-bit
    count of rows held in memory and SUM a 128-bit accumulator, so neither
    wraps on a loadable table).  Fractional values are exact rationals [Q],
    compared with [==]; the DOUBLE evaluation of the two rate expressions
    and of ROUND is given separately in [Binary64].  A column value is
    [option]: [None] is SQL NULL. *)

From Stdlib Require Import List String ZArith QArith Qround Bool Lia Sorted.
From Stdlib Require Import PrimFloat Uint63 SpecFloat FloatOps.
From Stdlib Require Import Permutation Qabs Lqa.
Import ListNotations.

Local Open Scope Z_scope.

(** ** SQL expressions and aggregates *)

Module SQL.

(** Three-valued truth: [None] is UNKNOWN. *)
Definition sql_bool := option bool.

Definition lift2 {A B C} (f : A -> B -> C) (x : option A) (y : option B)
  : option C :=
  match x, y with
  | Some a, Some b => Some (f a b)
  | _, _ => None
  end.

Definition lt (x y : option Z) : sql_bool := lift2 Z.ltb x y.
Definition le (x y : option Z) : sql_bool := lift2 Z.leb x y.
Definition eq_int (x y : option Z) : sql_bool := lift2 Z.eqb x y.
Definition eq_str (x y : option string) : sql_bool := lift2 String.eqb x y.

Definition and3 (p q : sql_bool) : sql_bool :=
  match p, q with
  | Some false, _ | _, Some false => Some false
  | Some true, Some true => Some true
  | _, _ => None
  end.

(** [x BETWEEN lo AND hi] is [lo <= x AND x <= hi]. *)
Definition between (x lo hi : option Z) : sql_bool :=
  and3 (le lo x) (le x hi).

(** A WHEN branch or a join condition is taken only on TRUE. *)
Definition holds (p : sql_bool) : bool :=
  match p with Some true => true | _ => false end.

(** [CASE WHEN c1 THEN v1 ... ELSE e END]: the first branch whose
    condition is TRUE wins. *)
Fixpoint case_when {A} (whens : list (sql_bool * A)) (els : A) : A :=
  match whens with
  | [] => els
  | (c, v) :: rest => if holds c then v else case_when rest els
  end.

Definition non_null {A} (col : list (option A)) : list A :=
  flat_map (fun v => match v with Some a => [a] | None => [] end) col.

Definition COUNT_star {R} (group : list R) : Z :=
  Z.of_nat (List.length group).

(** SUM and AVG skip NULLs and are NULL when nothing is left. *)
Definition SUM (col : list (option Z)) : option Z :=
  match non_null col with
  | [] => None
  | vs => Some (fold_right Z.add 0 vs)
  end.

Definition AVG (col : list (option Q)) : option Q :=
  match non_null col with
  | [] => None
  | vs =>
      Some (fold_right Qplus 0%Q vs / inject_Z (Z.of_nat (List.length vs)))%Q
  end.

Definition of_int (x : option Z) : option Q := option_map inject_Z x.

Definition mul (x y : option Q) : option Q := lift2 Qmult x y.

(** Division: a zero divisor gives no finite value (the engine answers
    NULL or a non-finite DOUBLE, it does not raise). *)
Definition div (x y : option Q) : option Q :=
  match x, y with
  | Some a, Some b => if Qeq_bool b 0 then None else Some (a / b)%Q
  | _, _ => None
  end.

(** ROUND(x, 2) on the exact value of x: nearest multiple of 1/100, halves
    away from zero.  The engine rounds the DOUBLE value of x, which at a tie
    of the exact value can lie on the other side ([Binary64.ROUND2]: 23
    flagged of 4000 is 0.575 exactly and shows 0.57); no statement below
    depends on which way such a tie goes. *)
Definition round_half_away (q : Q) : Z :=
  if Qle_bool 0 q then Qfloor (q + (1 # 2)) else - Qfloor (- q + (1 # 2)).

Definition round2 (q : Q) : Q :=
  (inject_Z (round_half_away (q * 100)) / 100)%Q.

Definition ROUND2 (x : option Q) : option Q := option_map round2 x.

(** GROUP BY: rows are partitioned by key, NULL keys forming one group.
    Groups are listed by first appearance of their key. *)
Definition key_eqb (a b : option string) : bool :=
  match a, b with
  | Some x, Some y => String.eqb x y
  | None, None => true
  | _, _ => false
  end.

Fixpoint distinct (ks : list (option string)) : list (option string) :=
  match ks with
  | [] => []
  | k :: rest => k :: filter (fun k' => negb (key_eqb k k')) (distinct rest)
  end.

Definition GROUP_BY {R} (key : R -> option string) (rows : list R)
  : list (option string * list R) :=
  map (fun k => (k, filter (fun r => key_eqb (key r) k) rows))
      (distinct (map key rows)).

(** ORDER BY ... DESC on a nullable rational column, NULLs last; among
    equal values the row that came later stands first (the engine leaves
    the order of ties open). *)
Definition desc_before (a b : option Q) : bool :=
  match a, b with
  | Some x, Some y => Qle_bool y x
  | _, None => true
  | None, Some _ => false
  end.

Section OrderBy.
Context {R : Type} (col : R -> option Q).

Fixpoint insert_desc (r : R) (sorted : list R) : list R :=
  match sorted with
  | [] => [r]
  | h :: t =>
      if desc_before (col h) (col r) then h :: insert_desc r t
      else r :: h :: t
  end.

Definition ORDER_BY_desc (rows : list R) : list R :=
  fold_right insert_desc [] rows.
End OrderBy.

Definition LIMIT {R} (n : nat) (rows : list R) : list R := firstn n rows.

End SQL.

(** ** The registered tables (columns the queries read) *)

Module customers.
Record row := mk
  { CUST_ID : option Z;
    SEX : option string;
    AGE : option Z;
    SIU_CUST_YN : option string }.
End customers.

Module cntt.
Record row := mk
  { POLY_NO : option Z;
    CUST_ID : option Z;
    GOOD_CLSF_CDNM : option string }.
End cntt.

(** ** Result rows

    [key] is the grouping column (SEX, AGE_GROUP or GOOD_CLSF_CDNM) and
    [TOTAL_COUNT] the COUNT( * ) column (aliased TOTAL_COUNT,
    TOTAL_CUSTOMERS or TOTAL_POLICIES in the source). *)

Record result_row := mk_result
  { key : option string;
    TOTAL_COUNT : Z;
    FRAUD_COUNT : option Z;
    FRAUD_RATE : option Q }.

(** ** Expressions shared by the queries *)

Module Expr.
Import SQL.

(** CASE WHEN AGE < 25 THEN 'Under 25' WHEN AGE BETWEEN 25 AND 40 THEN
    '25-40' WHEN AGE BETWEEN 41 AND 60 THEN '41-60' ELSE 'Above 60' END *)
Definition AGE_GROUP (age : option Z) : string :=
  case_when
    [ (lt age (Some 25), "Under 25"%string);
      (between age (Some 25) (Some 40), "25-40"%string);
      (between age (Some 41) (Some 60), "41-60"%string) ]
    "Above 60"%string.

(** CASE WHEN SIU_CUST_YN = 'Y' THEN 1 ELSE 0 END *)
Definition fraud_int (flag : option string) : option Z :=
  Some (case_when [ (eq_str flag (Some "Y"%string), 1) ] 0).

(** CASE WHEN SIU_CUST_YN = 'Y' THEN 1.0 ELSE 0.0 END *)
Definition fraud_dec (flag : option string) : option Q :=
  Some (case_when [ (eq_str flag (Some "Y"%string), 1%Q) ] 0%Q).

(** SUM(CASE ... THEN 1 ELSE 0 END) * 100.0 / COUNT( * ) *)
Definition sum_count_rate (flags : list (option string)) : option Q :=
  div (mul (of_int (SUM (map fraud_int flags))) (Some 100%Q))
      (Some (inject_Z (COUNT_star flags))).

(** AVG(CASE ... THEN 1.0 ELSE 0.0 END) * 100 *)
Definition avg_rate (flags : list (option string)) : option Q :=
  mul (AVG (map fraud_dec flags)) (Some 100%Q).

End Expr.

(** ** Overview page *)

Module Overview.
Import SQL Expr.

Definition aggregate {R} (flag : R -> option string)
           (g : option string * list R) : result_row :=
  let flags := map flag (snd g) in
  {| key := fst g;
     FRAUD_COUNT := SUM (map fraud_int flags);
     TOTAL_COUNT := COUNT_star (snd g);
     FRAUD_RATE := ROUND2 (sum_count_rate flags) |}.

Definition gender_fraud_rate (tbl : list customers.row) : list result_row :=
  map (aggregate customers.SIU_CUST_YN) (GROUP_BY customers.SEX tbl).

Definition age_fraud_rate (tbl : list customers.row) : list result_row :=
  map (aggregate customers.SIU_CUST_YN)
      (GROUP_BY (fun r => Some (AGE_GROUP (customers.AGE r))) tbl).

End Overview.

(** ** Queries and Visualizations page, tab "Analysis Queries" *)

Module Catalog.
Import SQL Expr.

Definition aggregate {R} (flag : R -> option string)
           (g : option string * list R) : result_row :=
  let flags := map flag (snd g) in
  {| key := fst g;
     TOTAL_COUNT := COUNT_star (snd g);
     FRAUD_COUNT := SUM (map fraud_int flags);
     FRAUD_RATE := avg_rate flags |}.

Definition fraud_by_gender (tbl : list customers.row) : list result_row :=
  map (aggregate customers.SIU_CUST_YN) (GROUP_BY customers.SEX tbl).

Definition fraud_by_age_group (tbl : list customers.row) : list result_row :=
  map (aggregate customers.SIU_CUST_YN)
      (GROUP_BY (fun r => Some (AGE_GROUP (customers.AGE r))) tbl).

(** cntt JOIN customers ON cntt.CUST_ID = customers.CUST_ID *)
Definition matches (c : cntt.row) (u : customers.row) : bool :=
  holds (eq_int (cntt.CUST_ID c) (customers.CUST_ID u)).

Definition JOIN (contracts : list cntt.row) (tbl : list customers.row)
  : list (cntt.row * customers.row) :=
  flat_map (fun c => map (pair c) (filter (matches c) tbl)) contracts.

Definition fraud_by_products (contracts : list cntt.row)
           (tbl : list customers.row) : list result_row :=
  LIMIT 5
    (ORDER_BY_desc FRAUD_RATE
       (map (aggregate (fun p => customers.SIU_CUST_YN (snd p)))
            (GROUP_BY (fun p => cntt.GOOD_CLSF_CDNM (fst p))
                      (JOIN contracts tbl)))).

(** The select box and the [if query == ... elif ...] chain under it. *)
Inductive analysis_query :=
| Fraud_by_Gender
| Fraud_by_Age_Group
| Fraud_by_insurance_products.

Definition result (query : analysis_query) (contracts : list cntt.row)
           (tbl : list customers.row) : list result_row :=
  match query with
  | Fraud_by_Gender => fraud_by_gender tbl
  | Fraud_by_Age_Group => fraud_by_age_group tbl
  | Fraud_by_insurance_products => fraud_by_products contracts tbl
  end.

End Catalog.

(** ** Queries and Visualizations page, tab "Custom Query" *)

Module CustomQuery.

(** A data frame as it is shown: column names and rows of cells. *)
Record table := mk_table
  { columns : list string;
    rows : list (list string) }.

(** What [conn.execute(query).df()] does: it returns a frame, raises an
    exception derived from [Exception] (every error of the engine is one)
    whose [str] is the message, or is interrupted by an exception outside
    the [Exception] hierarchy. *)
Inductive outcome :=
| Returns (result : table)
| Raises (e : string)
| Interrupted (e : string).

Inductive widget :=
| dataframe (t : table)
| error (text : string).

(** One run of the tab body: the widgets it renders, or the exception
    that escapes it. *)
Inductive run :=
| Rendered (ws : list widget)
| Escaped (e : string).

Section Engine.
Variable execute_df : string -> outcome.

(** [if st.button("Execute Query"): try: ... except Exception as e: ...] *)
Definition custom_query (button : bool) (query : string) : run :=
  if button then
    match execute_df query with
    | Returns result => Rendered [dataframe result]
    | Raises e => Rendered [error ("Error: " ++ e)]
    | Interrupted e => Escaped e
    end
  else Rendered [].
End Engine.

End CustomQuery.

(** ** DOUBLE evaluation of the two rate expressions

    In the engine [/] is a DOUBLE division and AVG returns a DOUBLE.  The
    product [SUM(...) * 100.0] is an exact decimal that is converted when it
    is divided; AVG adds the decimals exactly and divides once by the count;
    [AVG(...) * 100] is a DOUBLE product. *)

Module Binary64.
Import SQL Expr.

Definition double (n : Z) : float := PrimFloat.of_uint63 (Uint63.of_Z n).

Definition sum_count_rate (flags : list (option string)) : option float :=
  match SUM (map fraud_int flags) with
  | Some s =>
      if COUNT_star flags =? 0 then None
      else Some (double (s * 100) / double (COUNT_star flags))%float
  | None => None
  end.

Definition AVG_flags (flags : list (option string)) : option float :=
  match SUM (map fraud_int flags) with
  | Some s => Some (double s / double (COUNT_star flags))%float
  | None => None
  end.

Definition avg_rate (flags : list (option string)) : option float :=
  option_map (fun a => a * double 100)%float (AVG_flags flags).

(** The nearest integer of a DOUBLE, halves away from zero. *)
Definition round_away (x : float) : Z :=
  match Prim2SF x with
  | S754_finite negative m e =>
      let k := if 0 <=? e then Z.pos m * 2 ^ e
               else (2 * Z.pos m + 2 ^ (- e)) / 2 ^ (- e + 1) in
      if negative then - k else k
  | _ => 0
  end.

(** ROUND(x, 2) of a DOUBLE that is not negative: the engine scales by
    100, rounds to the nearest integer and divides by 100. *)
Definition ROUND2 (x : float) : float :=
  (double (round_away (x * double 100)) / double 100)%float.

(** ROUND(SUM(...) * 100.0 / COUNT( * ), 2) *)
Definition overview_rate (flags : list (option string)) : option float :=
  option_map ROUND2 (sum_count_rate flags).

End Binary64.

(** ** Reading a result *)

(** The rate column holds a value equal to [q]. *)
Definition rate_eq (r : option Q) (q : Q) : Prop :=
  match r with
  | Some v => v == q
  | None => False
  end.



(** The 0/1 value of the fraud CASE for one flag. *)
Definition flagged (flag : option string) : Z :=
  SQL.case_when [ (SQL.eq_str flag (Some "Y"%string), 1) ] 0.

(** Number of flags equal to 'Y'. *)
Definition fraud_total (flags : list (option string)) : Z :=
  fold_right Z.add 0 (map flagged flags).

(** Rows that land in the ELSE branch of the age CASE. *)
Definition else_branch (age : option Z) : bool :=
  match age with
  | None => true
  | Some a => 60 <? a
  end.

(** A contract that joins with at least one customer. *)
Definition has_customer (tbl : list customers.row) (c : cntt.row) : bool :=
  existsb (Catalog.matches c) tbl.

(** The rate as the specification words it: fraud_count / total_count * 100,
    and its display form rounded to two decimals. *)
Definition spec_rate (fraud total : Z) : Q :=
  inject_Z fraud / inject_Z total * 100.

Definition spec_displayed_rate (fraud total : Z) : Q :=
  SQL.round2 (spec_rate fraud total).

(** Row [a] may stand before row [b] in a result ordered by [col] DESC. *)
Definition in_order {R} (col : R -> option Q) (a b : R) : Prop :=
  SQL.desc_before (col a) (col b) = true.

(** Row [r] summarises the nonempty group [g]: its COUNT( * ) and its
    number of flagged members. *)
Definition summarises {R} (flag : R -> option string)
           (r : result_row) (g : list R) : Prop :=
  g <> [] /\
  TOTAL_COUNT r = SQL.COUNT_star g /\
  FRAUD_COUNT r = Some (fraud_total (map flag g)).

(** The tables of the scenarios. *)
Definition scenario_customers : list customers.row :=
  [ customers.mk (Some 1) (Some "M"%string) (Some 30) (Some "Y"%string);
    customers.mk (Some 2) (Some "M"%string) (Some 50) (Some "N"%string);
    customers.mk (Some 3) (Some "F"%string) (Some 20) (Some "N"%string) ].

Definition one_in_three : list customers.row :=
  [ customers.mk (Some 1) (Some "M"%string) (Some 30) (Some "Y"%string);
    customers.mk (Some 2) (Some "M"%string) (Some 50) (Some "N"%string);
    customers.mk (Some 3) (Some "M"%string) None (Some "N"%string) ].

Definition scenario_contracts : list cntt.row :=
  [ cntt.mk (Some 100) (Some 1) (Some "term"%string);
    cntt.mk (Some 101) (Some 2) (Some "term"%string);
    cntt.mk (Some 102) (Some 3) (Some "pension"%string);
    cntt.mk (Some 103) (Some 9) (Some "education"%string);
    cntt.mk (Some 104) None (Some "term"%string) ].

(** Rows the scenarios produce. *)
Definition scenario_row_M : result_row :=
  mk_result (Some "M"%string) 2 (Some 1) (Some (100 # 2)).

Definition scenario_row_F : result_row :=
  mk_result (Some "F"%string) 1 (Some 0) (Some 0%Q).

Definition scenario_row_term : result_row :=
  mk_result (Some "term"%string) 2 (Some 1) (Some (100 # 2)).



Definition customer_without_age : customers.row :=
  customers.mk (Some 3) (Some "M"%string) None (Some "N"%string).

(** A group of 4000 customers of whom 23 are flagged. *)
Definition flags_23_of_4000 : list (option string) :=
  repeat (Some "Y"%string) 23 ++ repeat (Some "N"%string) 3977.



(** An engine for the scenarios of the query box: it answers one query and
    rejects every other text. *)
Definition sample_engine (query : string) : CustomQuery.outcome :=
  if String.eqb query "SELECT 42 AS answer"
  then CustomQuery.Returns
         (CustomQuery.mk_table ["answer"%string] [["42"%string]])
  else CustomQuery.Raises "Parser Error: syntax error at or near the input".


(** ** The rest of the program

    The claim table, the table viewer of the Insurance Database page, the
    three metrics of the Overview page and the example query shown in the
    Custom Query tab. *)

Module claim.
Record row := mk
  { POLY_NO : option Z;
    CUST_ID : option Z }.
End claim.

(** Grouping and ordering on any key, for the integer columns. *)
Module Generic.

Fixpoint distinct_by {K} (eqb : K -> K -> bool) (ks : list K) : list K :=
  match ks with
  | [] => []
  | k :: rest =>
      k :: filter (fun k' => negb (eqb k k')) (distinct_by eqb rest)
  end.

Definition group_by {K R} (eqb : K -> K -> bool) (key : R -> K)
           (rows : list R) : list (K * list R) :=
  map (fun k => (k, filter (fun r => eqb (key r) k) rows))
      (distinct_by eqb (map key rows)).

Fixpoint insert_by {R} (before : R -> R -> bool) (r : R) (sorted : list R)
  : list R :=
  match sorted with
  | [] => [r]
  | h :: t =>
      if before h r then h :: insert_by before r t else r :: h :: t
  end.

Definition sort_by {R} (before : R -> R -> bool) (rows : list R) : list R :=
  fold_right (insert_by before) [] rows.

End Generic.

(** Insurance Database page: the selected frame, sorted by its id column. *)
Module Database.

(** Ascending order of a nullable integer column, missing values last. *)
Definition asc_before (a b : option Z) : bool :=
  match a, b with
  | Some x, Some y => x <=? y
  | _, None => true
  | None, Some _ => false
  end.

(** [df.sort_values(by=..., ascending=True)] *)
Definition sort_values {R} (by_col : R -> option Z) (df : list R) : list R :=
  Generic.sort_by (fun a b => asc_before (by_col a) (by_col b)) df.

(** The three branches of the [if selected_table == ... elif ...] chain. *)
Definition view_customers (customers_df : list customers.row)
  : list customers.row :=
  sort_values customers.CUST_ID customers_df.

Definition view_cntt (cntt_df : list cntt.row) : list cntt.row :=
  sort_values cntt.POLY_NO cntt_df.

Definition view_claim (claim_df : list claim.row) : list claim.row :=
  sort_values claim.POLY_NO claim_df.

End Database.

(** Overview page: the three metrics. *)
Module Metrics.

(** [Series.nunique()]: number of distinct values, missing ones left out. *)
Definition nunique (col : list (option Z)) : Z :=
  Z.of_nat (List.length (nodup Z.eq_dec (SQL.non_null col))).

(** [Series.count()]: number of values that are not missing. *)
Definition count (col : list (option Z)) : Z :=
  Z.of_nat (List.length (SQL.non_null col)).

Definition total_customers (customers_df : list customers.row) : Z :=
  nunique (map customers.CUST_ID customers_df).

Definition total_policies (cntt_df : list cntt.row) : Z :=
  nunique (map cntt.POLY_NO cntt_df).

Definition total_claims (claim_df : list claim.row) : Z :=
  count (map claim.POLY_NO claim_df).

End Metrics.

(** The example of the Custom Query tab:
    SELECT CUST_ID, COUNT( * ) AS TOTAL_CLAIMS FROM claim GROUP BY CUST_ID
    ORDER BY TOTAL_CLAIMS DESC LIMIT 10 *)
Module Example.

Definition id_eqb (a b : option Z) : bool :=
  match a, b with
  | Some x, Some y => x =? y
  | None, None => true
  | _, _ => false
  end.

Record claimant := mk_claimant
  { CUST_ID : option Z;
    TOTAL_CLAIMS : Z }.

Definition top_claimants (claim_df : list claim.row) : list claimant :=
  SQL.LIMIT 10
    (Generic.sort_by (fun a b => TOTAL_CLAIMS b <=? TOTAL_CLAIMS a)
       (map (fun g => mk_claimant (fst g) (SQL.COUNT_star (snd g)))
            (Generic.group_by id_eqb claim.CUST_ID claim_df))).

End Example.

(** ** Reading the added parts *)

(** Sum of a list of integers, and of the values of a nullable column. *)
Definition total (l : list Z) : Z := fold_right Z.add 0 l.

Definition column_sum (col : list (option Z)) : Z := total (SQL.non_null col).

(** The flag is exactly 'Y'. *)
Definition is_Y (flag : option string) : bool :=
  match flag with
  | Some s => String.eqb s "Y"
  | None => false
  end.

(** All product groups of the joined tables, before ORDER BY and LIMIT. *)
Definition product_groups (contracts : list cntt.row)
           (tbl : list customers.row) : list result_row :=
  map (Catalog.aggregate (fun p => customers.SIU_CUST_YN (snd p)))
      (SQL.GROUP_BY (fun p => cntt.GOOD_CLSF_CDNM (fst p))
                    (Catalog.JOIN contracts tbl)).

(** A customer that joins with at least one contract. *)
Definition has_contract (contracts : list cntt.row) (u : customers.row)
  : bool :=
  existsb (fun c => Catalog.matches c u) contracts.

(** The frames both pages compute from the customers table. *)
Definition gender_frames (tbl : list customers.row) : list (list result_row) :=
  [ Overview.gender_fraud_rate tbl; Catalog.fraud_by_gender tbl ].

Definition age_frames (tbl : list customers.row) : list (list result_row) :=
  [ Overview.age_fraud_rate tbl; Catalog.fraud_by_age_group tbl ].

(** Number of customers whose flag is exactly 'Y'. *)
Definition flagged_customers (tbl : list customers.row) : Z :=
  SQL.COUNT_star (filter (fun c => is_Y (customers.SIU_CUST_YN c)) tbl).

(** Ascending order of the viewer on column [by_col]. *)
Definition ascending {R} (by_col : R -> option Z) (a b : R) : Prop :=
  Database.asc_before (by_col a) (by_col b) = true.



(** The four labels of the age CASE. *)
Definition age_labels : list string :=
  [ "Under 25"; "25-40"; "41-60"; "Above 60" ]%string.


(** The order and the groups of the example query. *)
Definition claimant_before (a b : Example.claimant) : bool :=
  Z.leb (Example.TOTAL_CLAIMS b) (Example.TOTAL_CLAIMS a).

Definition claimant_groups (claim_df : list claim.row)
  : list Example.claimant :=
  map (fun g => Example.mk_claimant (fst g) (SQL.COUNT_star (snd g)))
      (Generic.group_by Example.id_eqb claim.CUST_ID claim_df).

(** Tables of the added scenarios. *)
Definition six_products : list cntt.row :=
  [ cntt.mk (Some 1) (Some 1) (Some "p1"%string);
    cntt.mk (Some 2) (Some 1) (Some "p2"%string);
    cntt.mk (Some 3) (Some 2) (Some "p2"%string);
    cntt.mk (Some 4) (Some 2) (Some "p3"%string);
    cntt.mk (Some 5) (Some 3) (Some "p4"%string);
    cntt.mk (Some 6) (Some 1) (Some "p5"%string);
    cntt.mk (Some 7) (Some 2) (Some "p6"%string) ].

Definition six_products_shown : result_row :=
  mk_result (Some "p2"%string) 2 (Some 1) (Some (100 # 2)).

Definition six_products_dropped : result_row :=
  mk_result (Some "p3"%string) 1 (Some 0) (Some 0%Q).

Definition scenario_claims : list claim.row :=
  [ claim.mk (Some 102) (Some 3);
    claim.mk (Some 100) (Some 1);
    claim.mk None (Some 1);
    claim.mk (Some 101) None ].

(** * Facts about the SQL operators *)

Section GroupBy.
Import SQL.

Lemma key_eqb_eq (a b : option string) : key_eqb a b = true <-> a = b.
Proof.
  destruct a as [x|], b as [y|]; simpl; split; intro H;
    try discriminate; try reflexivity.
  - apply String.eqb_eq in H. now subst.
  - injection H as ->. apply String.eqb_refl.
Qed.

Lemma key_eqb_refl (a : option string) : key_eqb a a = true.
Proof. now apply key_eqb_eq. Qed.

Lemma distinct_In (ks : list (option string)) (k : option string) :
  In k (distinct ks) <-> In k ks.
Proof.
  induction ks as [|h t IH]; simpl; [tauto|].
  rewrite filter_In, IH. split.
  - intros [->|[H _]]; auto.
  - intros [->|H]; auto.
    destruct (key_eqb h k) eqn:E.
    + left. now apply key_eqb_eq.
    + right. split; auto.
Qed.

Lemma distinct_NoDup (ks : list (option string)) : NoDup (distinct ks).
Proof.
  induction ks as [|h t IH]; simpl; constructor.
  - rewrite filter_In. intros [_ H].
    now rewrite key_eqb_refl in H.
  - now apply NoDup_filter.
Qed.

Context {R : Type} (col : R -> option string).

(** Every group is the set of rows carrying its key, and it has a member. *)
Lemma GROUP_BY_In (rows : list R) (k : option string) (g : list R) :
  In (k, g) (GROUP_BY col rows) ->
  g = filter (fun r => key_eqb (col r) k) rows /\
  exists r, In r g /\ col r = k.
Proof.
  unfold GROUP_BY. rewrite in_map_iff.
  intros (k' & [= <- <-] & Hk).
  split; [reflexivity|].
  apply distinct_In, in_map_iff in Hk. destruct Hk as (r & <- & Hr).
  exists r. split; [|reflexivity].
  apply filter_In. split; [assumption|apply key_eqb_refl].
Qed.

(** Every key present in the table has its group in the result. *)
Lemma GROUP_BY_complete (rows : list R) (r : R) :
  In r rows ->
  In (col r, filter (fun x => key_eqb (col x) (col r)) rows)
     (GROUP_BY col rows).
Proof.
  intro Hr. unfold GROUP_BY. apply in_map_iff.
  exists (col r). split; [reflexivity|].
  apply distinct_In, in_map. assumption.
Qed.

Lemma GROUP_BY_count (rows : list R) (k : option string) (g : list R) :
  In (k, g) (GROUP_BY col rows) -> 1 <= COUNT_star g.
Proof.
  intro H. apply GROUP_BY_In in H. destruct H as (_ & r & Hr & _).
  unfold COUNT_star. destruct g; [contradiction|simpl List.length; lia].
Qed.

End GroupBy.

Section Aggregates.
Import SQL Expr.

Lemma flagged_cases (flag : option string) :
  flagged flag = 0 \/ flagged flag = 1.
Proof.
  unfold flagged. simpl. destruct (holds _); auto.
Qed.

Lemma fraud_int_flagged (flag : option string) :
  fraud_int flag = Some (flagged flag).
Proof. reflexivity. Qed.

Lemma fraud_dec_flagged (flag : option string) :
  fraud_dec flag = Some (inject_Z (flagged flag)).
Proof.
  unfold fraud_dec, flagged. simpl. now destruct (holds _).
Qed.

Lemma non_null_Some {A B} (f : A -> B) (l : list A) :
  non_null (map (fun a => Some (f a)) l) = map f l.
Proof.
  induction l as [|a l IH]; simpl; [reflexivity|].
  f_equal. exact IH.
Qed.

Lemma non_null_fraud_int (flags : list (option string)) :
  non_null (map fraud_int flags) = map flagged flags.
Proof. apply (non_null_Some flagged). Qed.

Lemma non_null_fraud_dec (flags : list (option string)) :
  non_null (map fraud_dec flags) = map (fun f => inject_Z (flagged f)) flags.
Proof.
  rewrite <- (non_null_Some (fun f => inject_Z (flagged f))).
  f_equal. apply map_ext. intro f. apply fraud_dec_flagged.
Qed.

Lemma SUM_fraud_int (flags : list (option string)) :
  SUM (map fraud_int flags) =
  match flags with [] => None | _ => Some (fraud_total flags) end.
Proof.
  unfold SUM. rewrite non_null_fraud_int.
  destruct flags; reflexivity.
Qed.

Lemma fraud_total_bounds (flags : list (option string)) :
  0 <= fraud_total flags <= COUNT_star flags.
Proof.
  unfold COUNT_star, fraud_total.
  induction flags as [|f t IH]; cbn [map fold_right List.length]; [lia|].
  rewrite Nat2Z.inj_succ.
  destruct (flagged_cases f) as [-> | ->]; lia.
Qed.

Lemma sum_inject (flags : list (option string)) :
  fold_right Qplus 0%Q (map (fun f => inject_Z (flagged f)) flags)
  == inject_Z (fraud_total flags).
Proof.
  unfold fraud_total.
  induction flags as [|f t IH]; simpl; [reflexivity|].
  rewrite IH, inject_Z_plus. reflexivity.
Qed.

Lemma count_nonzero {R} (g : list R) :
  g <> [] -> ~ inject_Z (COUNT_star g) == 0.
Proof.
  intros Hg H. unfold COUNT_star in H.
  change 0%Q with (inject_Z 0) in H.
  apply (proj1 (inject_Z_injective _ _)) in H.
  destruct g; [congruence|]. cbn [List.length] in H. lia.
Qed.

(** The catalog expression on a nonempty group is fraud/total*100. *)
Lemma avg_rate_value (flags : list (option string)) :
  flags <> [] ->
  exists q, avg_rate flags = Some q /\
            q == spec_rate (fraud_total flags) (COUNT_star flags).
Proof.
  intro Hne. unfold avg_rate, AVG. rewrite non_null_fraud_dec.
  destruct flags as [|f t]; [congruence|].
  cbn [map]. cbn [mul lift2]. eexists. split; [reflexivity|].
  unfold spec_rate.
  change (inject_Z (flagged f) :: map (fun f0 => inject_Z (flagged f0)) t)
    with (map (fun f0 => inject_Z (flagged f0)) (f :: t)).
  rewrite sum_inject, length_map. reflexivity.
Qed.

(** The overview expression (before ROUND) on a nonempty group. *)
Lemma sum_count_rate_value (flags : list (option string)) :
  flags <> [] ->
  exists q, sum_count_rate flags = Some q /\
            q == spec_rate (fraud_total flags) (COUNT_star flags).
Proof.
  intro Hne. unfold sum_count_rate. rewrite SUM_fraud_int.
  destruct flags as [|f t] eqn:E; [congruence|]. rewrite <- E in *.
  cbn [of_int option_map mul lift2 div].
  destruct (Qeq_bool (inject_Z (COUNT_star flags)) 0) eqn:Z0.
  - apply Qeq_bool_iff in Z0. now apply count_nonzero in Z0.
  - eexists. split; [reflexivity|].
    unfold spec_rate. field. now apply count_nonzero.
Qed.

Lemma rates_of_no_rows :
  sum_count_rate [] = None /\ avg_rate [] = None.
Proof. split; reflexivity. Qed.

Lemma spec_rate_bounds (fraud total : Z) :
  0 <= fraud <= total -> 1 <= total ->
  (0 <= spec_rate fraud total <= 100)%Q.
Proof.
  intros Hf Ht. unfold spec_rate.
  assert (Hpos : (0 < inject_Z total)%Q).
  { change 0%Q with (inject_Z 0). rewrite <- Zlt_Qlt. lia. }
  split.
  - apply Qmult_le_0_compat; [|discriminate].
    apply Qle_shift_div_l; [assumption|].
    rewrite Qmult_0_l. change 0%Q with (inject_Z 0).
    rewrite <- Zle_Qle. lia.
  - setoid_replace 100%Q with (1 * 100)%Q at 2 by reflexivity.
    apply Qmult_le_compat_r; [|discriminate].
    apply Qle_shift_div_r; [assumption|].
    rewrite Qmult_1_l. rewrite <- Zle_Qle. lia.
Qed.

End Aggregates.

Section OrderByFacts.
Import SQL.

Lemma desc_before_total (a b : option Q) :
  desc_before a b = false -> desc_before b a = true.
Proof.
  destruct a as [x|], b as [y|]; simpl; try congruence.
  intro H. apply Qle_bool_iff.
  destruct (Qlt_le_dec x y) as [Hlt|Hle].
  - now apply Qlt_le_weak.
  - apply Qle_bool_iff in Hle. congruence.
Qed.

Lemma desc_before_trans (a b c : option Q) :
  desc_before a b = true -> desc_before b c = true -> desc_before a c = true.
Proof.
  destruct a as [x|], b as [y|], c as [z|]; simpl; try congruence.
  rewrite !Qle_bool_iff. intros H1 H2. now apply Qle_trans with y.
Qed.

Context {R : Type} (col : R -> option Q).

Lemma insert_desc_In (r x : R) (l : list R) :
  In x (insert_desc col r l) <-> x = r \/ In x l.
Proof.
  induction l as [|h t IH]; simpl.
  - intuition congruence.
  - destruct (desc_before (col h) (col r)); simpl; rewrite ?IH;
      intuition congruence.
Qed.

Lemma ORDER_BY_desc_In (x : R) (l : list R) :
  In x (ORDER_BY_desc col l) <-> In x l.
Proof.
  induction l as [|h t IH]; simpl; [tauto|].
  rewrite insert_desc_In, IH. intuition congruence.
Qed.

Lemma insert_desc_sorted (r : R) (l : list R) :
  StronglySorted (in_order col) l ->
  StronglySorted (in_order col) (insert_desc col r l).
Proof.
  induction 1 as [|h t Hs IH Hall]; simpl.
  - constructor; constructor.
  - destruct (desc_before (col h) (col r)) eqn:E.
    + constructor; [assumption|].
      apply Forall_forall. intros x Hx.
      apply insert_desc_In in Hx. destruct Hx as [->|Hx]; [exact E|].
      now apply (proj1 (Forall_forall _ _) Hall).
    + apply desc_before_total in E.
      constructor; [now constructor|].
      constructor; [exact E|].
      apply Forall_forall. intros x Hx.
      apply desc_before_trans with (col h); [exact E|].
      now apply (proj1 (Forall_forall _ _) Hall).
Qed.

Lemma ORDER_BY_desc_sorted (l : list R) :
  StronglySorted (in_order col) (ORDER_BY_desc col l).
Proof.
  induction l as [|h t IH]; simpl; [constructor|].
  now apply insert_desc_sorted.
Qed.

Lemma LIMIT_sorted (n : nat) (l : list R) :
  StronglySorted (in_order col) l -> StronglySorted (in_order col) (LIMIT n l).
Proof.
  unfold LIMIT. intro H. revert n.
  induction H as [|h t Hs IH Hall]; intros [|n]; simpl; try constructor.
  - apply IH.
  - apply Forall_forall. intros x Hx.
    apply (proj1 (Forall_forall _ _) Hall).
    rewrite <- (firstn_skipn n t). apply in_or_app. now left.
Qed.

Lemma LIMIT_length (n : nat) (l : list R) : (List.length (LIMIT n l) <= n)%nat.
Proof. apply firstn_le_length. Qed.

Lemma LIMIT_In (n : nat) (l : list R) (x : R) : In x (LIMIT n l) -> In x l.
Proof.
  unfold LIMIT. intro H. rewrite <- (firstn_skipn n l).
  apply in_or_app. now left.
Qed.

(** A sorted column without NULLs is a non-increasing list of values. *)
Lemma sorted_values (l : list R) :
  StronglySorted (in_order col) l ->
  Forall (fun r => col r <> None) l ->
  exists qs, map col l = map Some qs /\
             StronglySorted (fun a b => b <= a)%Q qs.
Proof.
  induction 1 as [|h t Hs IH Hall]; intro Hnn.
  - exists []. split; constructor.
  - inversion Hnn as [|? ? Hh Ht]; subst.
    destruct (IH Ht) as (qs & Hmap & Hsorted).
    destruct (col h) as [q|] eqn:Eh; [|congruence].
    exists (q :: qs). simpl. rewrite Eh, Hmap. split; [reflexivity|].
    constructor; [assumption|].
    apply Forall_forall. intros y Hy.
    assert (Hin : In (Some y) (map col t))
      by (rewrite Hmap; now apply in_map).
    apply in_map_iff in Hin. destruct Hin as (r & Hr & Hrt).
    pose proof (proj1 (Forall_forall _ _) Hall r Hrt) as Hord.
    unfold in_order in Hord. rewrite Eh, Hr in Hord. simpl in Hord.
    now apply Qle_bool_iff.
Qed.

End OrderByFacts.

Section Rounding.
Import SQL.

Lemma round_half_away_comp (q q' : Q) :
  q == q' -> round_half_away q = round_half_away q'.
Proof.
  intro H. unfold round_half_away.
  assert (Hb : Qle_bool 0 q = Qle_bool 0 q').
  { destruct (Qle_bool 0 q) eqn:E, (Qle_bool 0 q') eqn:E'; try reflexivity.
    - apply Qle_bool_iff in E. rewrite H in E.
      apply Qle_bool_iff in E. congruence.
    - apply Qle_bool_iff in E'. rewrite <- H in E'.
      apply Qle_bool_iff in E'. congruence. }
  rewrite Hb. destruct (Qle_bool 0 q'); now rewrite H.
Qed.

Lemma round2_comp (q q' : Q) : q == q' -> round2 q == round2 q'.
Proof.
  intro H. unfold round2.
  rewrite (round_half_away_comp (q * 100) (q' * 100)); [reflexivity|].
  now rewrite H.
Qed.

End Rounding.

Section QueryRows.
Import SQL Expr.
Context {R : Type} (flag : R -> option string) (col : R -> option string).

Lemma COUNT_star_map {A B} (f : A -> B) (l : list A) :
  COUNT_star (map f l) = COUNT_star l.
Proof. unfold COUNT_star. now rewrite length_map. Qed.

Lemma fraud_total_map_bounds (g : list R) :
  0 <= fraud_total (map flag g) <= COUNT_star g.
Proof.
  rewrite <- (COUNT_star_map flag). apply fraud_total_bounds.
Qed.

(** A row of a catalog query: the group it stands for and its rate. *)
Lemma Catalog_row (rows : list R) (r : result_row) :
  In r (map (Catalog.aggregate flag) (GROUP_BY col rows)) ->
  exists g,
    g = filter (fun x => key_eqb (col x) (key r)) rows /\
    summarises flag r g /\
    exists q, FRAUD_RATE r = Some q /\
              q == spec_rate (fraud_total (map flag g)) (COUNT_star g).
Proof.
  rewrite in_map_iff. intros ([k g] & <- & Hg).
  apply GROUP_BY_In in Hg. destruct Hg as (Hfilter & x & Hx & _).
  assert (Hne : g <> []) by (intros ->; contradiction).
  assert (Hflags : map flag g <> []) by (destruct g; [congruence|discriminate]).
  exists g. unfold summarises.
  cbn [Catalog.aggregate key TOTAL_COUNT FRAUD_COUNT FRAUD_RATE fst snd].
  split; [exact Hfilter|]. split.
  - repeat split; [exact Hne|].
    rewrite SUM_fraud_int. destruct (map flag g); [congruence|reflexivity].
  - destruct (avg_rate_value _ Hflags) as (q & Hq & Hv).
    exists q. split; [exact Hq|]. now rewrite COUNT_star_map in Hv.
Qed.

(** A row of an overview query: the rate is the rounded expression. *)
Lemma Overview_row (rows : list R) (r : result_row) :
  In r (map (Overview.aggregate flag) (GROUP_BY col rows)) ->
  exists g,
    g = filter (fun x => key_eqb (col x) (key r)) rows /\
    summarises flag r g /\
    exists q, FRAUD_RATE r = Some (round2 q) /\
              q == spec_rate (fraud_total (map flag g)) (COUNT_star g).
Proof.
  rewrite in_map_iff. intros ([k g] & <- & Hg).
  apply GROUP_BY_In in Hg. destruct Hg as (Hfilter & x & Hx & _).
  assert (Hne : g <> []) by (intros ->; contradiction).
  assert (Hflags : map flag g <> []) by (destruct g; [congruence|discriminate]).
  exists g. unfold summarises.
  cbn [Overview.aggregate key TOTAL_COUNT FRAUD_COUNT FRAUD_RATE fst snd].
  split; [exact Hfilter|]. split.
  - repeat split; [exact Hne|].
    rewrite SUM_fraud_int. destruct (map flag g); [congruence|reflexivity].
  - destruct (sum_count_rate_value _ Hflags) as (q & Hq & Hv).
    exists q. rewrite Hq. split; [reflexivity|].
    now rewrite COUNT_star_map in Hv.
Qed.

Lemma summarises_count (r : result_row) (g : list R) :
  summarises flag r g -> 1 <= TOTAL_COUNT r.
Proof.
  intros (Hne & -> & _). unfold COUNT_star.
  destruct g; [congruence|]. cbn [List.length]. lia.
Qed.

End QueryRows.

Section Products.
Import SQL.

Lemma fraud_by_products_In (contracts : list cntt.row)
      (tbl : list customers.row) (r : result_row) :
  In r (Catalog.fraud_by_products contracts tbl) ->
  In r (map (Catalog.aggregate (fun p => customers.SIU_CUST_YN (snd p)))
            (GROUP_BY (fun p => cntt.GOOD_CLSF_CDNM (fst p))
                      (Catalog.JOIN contracts tbl))).
Proof.
  unfold Catalog.fraud_by_products. intro H.
  apply LIMIT_In in H. now apply ORDER_BY_desc_In in H.
Qed.

Lemma unmatched_contract (tbl : list customers.row) (c : cntt.row) :
  has_customer tbl c = false -> filter (Catalog.matches c) tbl = [].
Proof.
  unfold has_customer. induction tbl as [|u t IH]; simpl; [reflexivity|].
  intro H. apply orb_false_iff in H. destruct H as [-> H]. now apply IH.
Qed.

Lemma JOIN_drops_unmatched (contracts : list cntt.row)
      (tbl : list customers.row) :
  Catalog.JOIN contracts tbl =
  Catalog.JOIN (filter (has_customer tbl) contracts) tbl.
Proof.
  unfold Catalog.JOIN.
  induction contracts as [|c t IH]; simpl; [reflexivity|].
  destruct (has_customer tbl c) eqn:E; simpl.
  - now rewrite IH.
  - now rewrite (unmatched_contract _ _ E).
Qed.

Lemma JOIN_In (contracts : list cntt.row) (tbl : list customers.row)
      (c : cntt.row) (u : customers.row) :
  In (c, u) (Catalog.JOIN contracts tbl) <->
  In c contracts /\ In u tbl /\ Catalog.matches c u = true.
Proof.
  unfold Catalog.JOIN. rewrite in_flat_map. split.
  - intros (c' & Hc & H). apply in_map_iff in H.
    destruct H as (u' & [= <- <-] & Hu). apply filter_In in Hu. tauto.
  - intros (Hc & Hu & Hm). exists c. split; [assumption|].
    apply in_map, filter_In. tauto.
Qed.

End Products.


(** The age CASE on an integer age: each label exactly on its interval. *)
Lemma AGE_GROUP_intervals (a : Z) :
  (Expr.AGE_GROUP (Some a) = "Under 25"%string <-> a < 25) /\
  (Expr.AGE_GROUP (Some a) = "25-40"%string <-> 25 <= a <= 40) /\
  (Expr.AGE_GROUP (Some a) = "41-60"%string <-> 41 <= a <= 60) /\
  (Expr.AGE_GROUP (Some a) = "Above 60"%string <-> 60 < a).
Proof.
  unfold Expr.AGE_GROUP, SQL.between, SQL.lt, SQL.le.
  cbn [SQL.lift2 SQL.case_when].
  destruct (Z.ltb_spec a 25) as [H1|H1]; cbn [SQL.holds].
  { repeat split; intros; auto; try lia; discriminate. }
  destruct (Z.leb_spec 25 a) as [H2|H2]; [|lia].
  destruct (Z.leb_spec a 40) as [H3|H3]; cbn [SQL.and3 SQL.holds].
  { repeat split; intros; auto; try lia; discriminate. }
  destruct (Z.leb_spec 41 a) as [H4|H4]; [|lia].
  destruct (Z.leb_spec a 60) as [H5|H5]; cbn [SQL.and3 SQL.holds].
  { repeat split; intros; auto; try lia; discriminate. }
  repeat split; intros; auto; try lia; discriminate.
Qed.

(** * The properties of the specification *)

Local Open Scope string_scope.

(** C1. On the three-customer scenario, Fraud by Gender returns exactly the
    group M with total 2, fraud count 1 and rate 50, and the group F with
    total 1, fraud count 0 and rate 0. *)
Theorem fraud_by_gender_scenario :
  exists m f,
    List.length (Catalog.result Catalog.Fraud_by_Gender [] scenario_customers)
    = 2%nat /\
    In m (Catalog.result Catalog.Fraud_by_Gender [] scenario_customers) /\
    In f (Catalog.result Catalog.Fraud_by_Gender [] scenario_customers) /\
    (key m = Some "M" /\ TOTAL_COUNT m = 2 /\ FRAUD_COUNT m = Some 1 /\
     rate_eq (FRAUD_RATE m) 50) /\
    (key f = Some "F" /\ TOTAL_COUNT f = 1 /\ FRAUD_COUNT f = Some 0 /\
     rate_eq (FRAUD_RATE f) 0).
Proof.
  exists scenario_row_M, scenario_row_F.
  split; [reflexivity|].
  split; [left; reflexivity|].
  split; [right; left; reflexivity|].
  cbn [key TOTAL_COUNT FRAUD_COUNT FRAUD_RATE rate_eq].
  repeat split.
Qed.

(** The same two rates as the engine computes them in DOUBLE. *)
Lemma fraud_by_gender_scenario_double :
  Binary64.avg_rate [Some "Y"; Some "N"] = Some 50%float /\
  Binary64.avg_rate [Some "N"] = Some 0%float.
Proof. split; vm_compute; reflexivity. Qed.

(** C2. On integer ages the CASE assigns one of the four labels, each label
    exactly on its interval: below 25, 25 to 40, 41 to 60, above 60; the
    ages 10, 30, 50, 70 get the four labels in that order. *)
Theorem AGE_GROUP_partition :
  (forall a : Z,
      In (Expr.AGE_GROUP (Some a)) ["Under 25"; "25-40"; "41-60"; "Above 60"] /\
      (Expr.AGE_GROUP (Some a) = "Under 25" <-> a < 25) /\
      (Expr.AGE_GROUP (Some a) = "25-40" <-> 25 <= a <= 40) /\
      (Expr.AGE_GROUP (Some a) = "41-60" <-> 41 <= a <= 60) /\
      (Expr.AGE_GROUP (Some a) = "Above 60" <-> 60 < a)) /\
  map Expr.AGE_GROUP [Some 10; Some 30; Some 50; Some 70] =
  ["Under 25"; "25-40"; "41-60"; "Above 60"].
Proof.
  split; [|reflexivity].
  intro a. split; [|apply AGE_GROUP_intervals].
  destruct (AGE_GROUP_intervals a) as (H1 & H2 & H3 & H4).
  destruct (Z_lt_le_dec a 25) as [L1|L1];
    [rewrite (proj2 H1 L1); simpl; tauto|].
  destruct (Z_le_gt_dec a 40) as [L2|L2];
    [rewrite (proj2 H2 (conj L1 L2)); simpl; tauto|].
  destruct (Z_le_gt_dec a 60) as [L3|L3].
  - rewrite (proj2 H3); [simpl; tauto|lia].
  - rewrite (proj2 H4); [simpl; tauto|lia].
Qed.

(** C3. For every pair of tables the Fraud by insurance products result has
    at most 5 rows, none of its rates is NULL, and the rates are in
    non-increasing order. *)
Theorem fraud_by_products_top5_sorted
        (contracts : list cntt.row) (tbl : list customers.row) :
  (List.length (Catalog.fraud_by_products contracts tbl) <= 5)%nat /\
  exists rates,
    map FRAUD_RATE (Catalog.fraud_by_products contracts tbl) = map Some rates /\
    StronglySorted (fun a b => b <= a)%Q rates.
Proof.
  split; [apply LIMIT_length|].
  apply sorted_values.
  - unfold Catalog.fraud_by_products.
    apply LIMIT_sorted, ORDER_BY_desc_sorted.
  - apply Forall_forall. intros r Hr.
    apply fraud_by_products_In, Catalog_row in Hr.
    destruct Hr as (g & _ & _ & q & -> & _). discriminate.
Qed.

(** Every row of a catalog query summarises a nonempty set of rows and
    carries the unrounded rate of that set. *)
Lemma Catalog_result_row (q : Catalog.analysis_query)
      (contracts : list cntt.row) (tbl : list customers.row) (r : result_row) :
  In r (Catalog.result q contracts tbl) ->
  exists fraud,
    FRAUD_COUNT r = Some fraud /\
    0 <= fraud <= TOTAL_COUNT r /\
    1 <= TOTAL_COUNT r /\
    exists rate, FRAUD_RATE r = Some rate /\
                 rate == spec_rate fraud (TOTAL_COUNT r).
Proof.
  intro H.
  assert (Hrow : exists (R : Type) (flag : R -> option string) (g : list R),
             summarises flag r g /\
             exists rate, FRAUD_RATE r = Some rate /\
               rate == spec_rate (fraud_total (map flag g)) (SQL.COUNT_star g)).
  { destruct q; cbn [Catalog.result] in H.
    - apply Catalog_row in H. destruct H as (g & _ & Hs & Hq).
      now exists customers.row, customers.SIU_CUST_YN, g.
    - apply Catalog_row in H. destruct H as (g & _ & Hs & Hq).
      now exists customers.row, customers.SIU_CUST_YN, g.
    - apply fraud_by_products_In, Catalog_row in H.
      destruct H as (g & _ & Hs & Hq).
      now exists (cntt.row * customers.row)%type,
                 (fun p => customers.SIU_CUST_YN (snd p)), g. }
  destruct Hrow as (R & flag & g & Hs & rate & Hrate & Hval).
  pose proof (summarises_count _ _ _ Hs) as Hone.
  destruct Hs as (Hne & Htotal & Hfraud).
  exists (fraud_total (map flag g)). rewrite Htotal in *.
  split; [exact Hfraud|]. split; [apply fraud_total_map_bounds|].
  split; [exact Hone|]. now exists rate.
Qed.

(** The same for the two frames of the Overview page, whose rate is the
    rounded one. *)
Lemma Overview_result_row (tbl : list customers.row) (r : result_row) :
  In r (Overview.gender_fraud_rate tbl) \/ In r (Overview.age_fraud_rate tbl) ->
  exists fraud,
    FRAUD_COUNT r = Some fraud /\
    0 <= fraud <= TOTAL_COUNT r /\
    1 <= TOTAL_COUNT r /\
    exists rate, FRAUD_RATE r = Some rate /\
                 rate == spec_displayed_rate fraud (TOTAL_COUNT r).
Proof.
  intro H.
  assert (Hrow : exists g : list customers.row,
             summarises customers.SIU_CUST_YN r g /\
             exists q, FRAUD_RATE r = Some (SQL.round2 q) /\
               q == spec_rate (fraud_total (map customers.SIU_CUST_YN g))
                              (SQL.COUNT_star g)).
  { destruct H as [H|H]; apply Overview_row in H;
      destruct H as (g & _ & Hs & Hq); now exists g. }
  destruct Hrow as (g & Hs & q & Hrate & Hval).
  pose proof (summarises_count _ _ _ Hs) as Hone.
  destruct Hs as (Hne & Htotal & Hfraud).
  exists (fraud_total (map customers.SIU_CUST_YN g)). rewrite Htotal in *.
  split; [exact Hfraud|]. split; [apply fraud_total_map_bounds|].
  split; [exact Hone|]. exists (SQL.round2 q).
  split; [exact Hrate|]. now apply round2_comp.
Qed.



(** C5. In every row of the gender, age-group and product queries the fraud
    count is at most the total count and the rate lies between 0 and 100. *)
Theorem counts_and_rate_bounded
        (q : Catalog.analysis_query) (contracts : list cntt.row)
        (tbl : list customers.row) (r : result_row) :
  In r (Catalog.result q contracts tbl) ->
  exists fraud rate,
    FRAUD_COUNT r = Some fraud /\ FRAUD_RATE r = Some rate /\
    0 <= fraud <= TOTAL_COUNT r /\
    (0 <= rate <= 100)%Q.
Proof.
  intro H. apply Catalog_result_row in H.
  destruct H as (fraud & Hf & Hb & Hone & rate & Hr & Hv).
  exists fraud, rate. repeat split; try assumption; try lia.
  - rewrite Hv. now apply spec_rate_bounds.
  - rewrite Hv. now apply spec_rate_bounds.
Qed.



(** C7. Contracts without a matching customer take no part in the product
    query: every joined pair belongs to a contract that has a customer, and
    removing the other contracts beforehand leaves the result unchanged. *)
Theorem unmatched_contracts_dropped
        (contracts : list cntt.row) (tbl : list customers.row) :
  Catalog.fraud_by_products contracts tbl
  = Catalog.fraud_by_products (filter (has_customer tbl) contracts) tbl /\
  (forall c u, In (c, u) (Catalog.JOIN contracts tbl) ->
               has_customer tbl c = true).
Proof.
  split.
  - unfold Catalog.fraud_by_products. now rewrite <- JOIN_drops_unmatched.
  - intros c u H. apply JOIN_In in H. destruct H as (_ & Hu & Hm).
    apply existsb_exists. now exists u.
Qed.

(** C8. Every row of every aggregate query stands for at least one input
    row, so its total count is at least 1 and its rate is a value, never
    the result of dividing by zero. *)
Theorem groups_never_empty
        (q : Catalog.analysis_query) (contracts : list cntt.row)
        (tbl : list customers.row) (r : result_row) :
  In r (Catalog.result q contracts tbl) \/
  In r (Overview.gender_fraud_rate tbl) \/
  In r (Overview.age_fraud_rate tbl) ->
  1 <= TOTAL_COUNT r /\ FRAUD_RATE r <> None.
Proof.
  intros [H|H].
  - apply Catalog_result_row in H.
    destruct H as (_ & _ & _ & Hone & rate & -> & _).
    split; [exact Hone|discriminate].
  - apply Overview_result_row in H.
    destruct H as (_ & _ & _ & Hone & rate & -> & _).
    split; [exact Hone|discriminate].
Qed.

(** The rows grouped under 'Above 60' are those of the ELSE branch. *)
Lemma above_60_is_else_branch (age : option Z) :
  SQL.key_eqb (Some (Expr.AGE_GROUP age)) (Some "Above 60") = else_branch age.
Proof.
  destruct age as [a|]; [|reflexivity].
  destruct (AGE_GROUP_intervals a) as (_ & _ & _ & Hiff).
  cbn [SQL.key_eqb else_branch].
  destruct (Z.ltb_spec 60 a) as [H|H].
  - apply String.eqb_eq. now apply Hiff.
  - apply String.eqb_neq. intro E. apply Hiff in E. lia.
Qed.

Lemma aggregate_summarises {R} (flag : R -> option string)
      (k : option string) (g : list R) :
  g <> [] ->
  summarises flag (Overview.aggregate flag (k, g)) g /\
  summarises flag (Catalog.aggregate flag (k, g)) g.
Proof.
  intro Hne.
  assert (Hsum : SQL.SUM (map Expr.fraud_int (map flag g))
                 = Some (fraud_total (map flag g))).
  { rewrite SUM_fraud_int. destruct g; [congruence|reflexivity]. }
  split; (split; [exact Hne|split; [reflexivity|exact Hsum]]).
Qed.

Lemma above_60_group (tbl : list customers.row) (c : customers.row) :
  In c tbl -> customers.AGE c = None ->
  In (Some "Above 60",
      filter (fun x => else_branch (customers.AGE x)) tbl)
     (SQL.GROUP_BY (fun r => Some (Expr.AGE_GROUP (customers.AGE r))) tbl).
Proof.
  intros Hc Ha.
  pose proof (GROUP_BY_complete
                (fun r => Some (Expr.AGE_GROUP (customers.AGE r))) tbl c Hc)
    as H.
  cbv beta in H. rewrite Ha in H.
  change (Expr.AGE_GROUP None) with "Above 60" in H.
  erewrite filter_ext in H; [exact H|].
  intro x. apply above_60_is_else_branch.
Qed.

(** C9. A customer without an age gets the label 'Above 60'; in the
    Overview age frame and in Fraud by Age Group the row 'Above 60' counts
    the customers whose age is missing or above 60, that customer among
    them. *)
Theorem null_age_counted_above_60
        (tbl : list customers.row) (c : customers.row) :
  In c tbl -> customers.AGE c = None ->
  Expr.AGE_GROUP (customers.AGE c) = "Above 60" /\
  In c (filter (fun x => else_branch (customers.AGE x)) tbl) /\
  (exists r, In r (Overview.age_fraud_rate tbl) /\
             key r = Some "Above 60" /\
             summarises customers.SIU_CUST_YN r
               (filter (fun x => else_branch (customers.AGE x)) tbl)) /\
  (exists r, In r (Catalog.fraud_by_age_group tbl) /\
             key r = Some "Above 60" /\
             summarises customers.SIU_CUST_YN r
               (filter (fun x => else_branch (customers.AGE x)) tbl)).
Proof.
  intros Hc Ha.
  assert (Hin : In c (filter (fun x => else_branch (customers.AGE x)) tbl)).
  { apply filter_In. split; [exact Hc|now rewrite Ha]. }
  assert (Hne : filter (fun x => else_branch (customers.AGE x)) tbl <> [])
    by (intro E; rewrite E in Hin; contradiction).
  pose proof (above_60_group tbl c Hc Ha) as Hg.
  destruct (aggregate_summarises customers.SIU_CUST_YN (Some "Above 60") _ Hne)
    as [Ho Hn].
  split; [now rewrite Ha|]. split; [exact Hin|]. split.
  - eexists. split; [|split; [|exact Ho]]; [|reflexivity].
    unfold Overview.age_fraud_rate.
    exact (in_map (Overview.aggregate customers.SIU_CUST_YN) _ _ Hg).
  - eexists. split; [|split; [|exact Hn]]; [|reflexivity].
    unfold Catalog.fraud_by_age_group.
    exact (in_map (Catalog.aggregate customers.SIU_CUST_YN) _ _ Hg).
Qed.



(** * The properties at the scenarios *)


Lemma counts_and_rate_bounded_scenario :
  In scenario_row_M
     (Catalog.result Catalog.Fraud_by_Gender [] scenario_customers) /\
  exists fraud rate,
    FRAUD_COUNT scenario_row_M = Some fraud /\
    FRAUD_RATE scenario_row_M = Some rate /\
    0 <= fraud <= TOTAL_COUNT scenario_row_M /\
    (0 <= rate <= 100)%Q.
Proof.
  assert (H : In scenario_row_M
                 (Catalog.result Catalog.Fraud_by_Gender [] scenario_customers))
    by (left; reflexivity).
  split; [exact H|].
  exact (counts_and_rate_bounded _ _ _ _ H).
Defined.


Lemma unmatched_contracts_dropped_scenario :
  Catalog.fraud_by_products scenario_contracts scenario_customers
  = Catalog.fraud_by_products (firstn 3 scenario_contracts)
                              scenario_customers /\
  has_customer scenario_customers
    (cntt.mk (Some 100) (Some 1) (Some "term")) = true.
Proof.
  split.
  - exact (proj1 (unmatched_contracts_dropped
                    scenario_contracts scenario_customers)).
  - apply (proj2 (unmatched_contracts_dropped
                    scenario_contracts scenario_customers)
                 _ (customers.mk (Some 1) (Some "M") (Some 30) (Some "Y"))).
    left. reflexivity.
Defined.

Lemma groups_never_empty_scenario :
  In scenario_row_term
     (Catalog.result Catalog.Fraud_by_insurance_products
                     scenario_contracts scenario_customers) /\
  1 <= TOTAL_COUNT scenario_row_term /\ FRAUD_RATE scenario_row_term <> None.
Proof.
  assert (H : In scenario_row_term
                 (Catalog.result Catalog.Fraud_by_insurance_products
                                 scenario_contracts scenario_customers))
    by (left; reflexivity).
  split; [exact H|].
  exact (groups_never_empty _ _ scenario_customers _ (or_introl H)).
Defined.

Lemma null_age_counted_above_60_scenario :
  Expr.AGE_GROUP (customers.AGE customer_without_age) = "Above 60" /\
  In customer_without_age
     (filter (fun x => else_branch (customers.AGE x)) one_in_three) /\
  (exists r, In r (Overview.age_fraud_rate one_in_three) /\
             key r = Some "Above 60" /\
             summarises customers.SIU_CUST_YN r
               (filter (fun x => else_branch (customers.AGE x))
                       one_in_three)) /\
  (exists r, In r (Catalog.fraud_by_age_group one_in_three) /\
             key r = Some "Above 60" /\
             summarises customers.SIU_CUST_YN r
               (filter (fun x => else_branch (customers.AGE x)) one_in_three)).
Proof.
  apply (null_age_counted_above_60 one_in_three customer_without_age).
  - right. right. left. reflexivity.
  - reflexivity.
Defined.

(** * The rest of the program: grouping *)

Section Grouping.
Import Generic.
Context {K : Type} (eqb : K -> K -> bool).
Hypothesis eqb_eq : forall a b, eqb a b = true <-> a = b.

Lemma eqb_same (a : K) : eqb a a = true.
Proof. now apply eqb_eq. Qed.

Lemma distinct_by_In (ks : list K) (k : K) :
  In k (distinct_by eqb ks) <-> In k ks.
Proof.
  induction ks as [|h t IH]; simpl; [tauto|].
  rewrite filter_In, IH. split.
  - intros [->|[H _]]; auto.
  - intros [->|H]; auto.
    destruct (eqb h k) eqn:E; [left; now apply eqb_eq|right; now split].
Qed.

Lemma distinct_by_NoDup (ks : list K) : NoDup (distinct_by eqb ks).
Proof.
  induction ks as [|h t IH]; simpl; constructor.
  - rewrite filter_In. intros [_ H]. now rewrite eqb_same in H.
  - now apply NoDup_filter.
Qed.

(** An indicator summed over a duplicate-free list of keys picks the key
    once, if it is there. *)
Lemma indicator_sum (ks : list K) (x : K) (v : Z) :
  NoDup ks -> In x ks ->
  total (map (fun k => if eqb x k then v else 0) ks) = v.
Proof.
  unfold total. induction 1 as [|k ks Hk Hnd IH]; simpl; [tauto|].
  intros [->|Hin].
  - rewrite eqb_same.
    assert (Hz : fold_right Z.add 0
                   (map (fun k => if eqb x k then v else 0) ks) = 0).
    { clear IH Hnd. induction ks as [|h t IHt]; simpl; [reflexivity|].
      destruct (eqb x h) eqn:E.
      - apply eqb_eq in E. subst h. simpl in Hk. tauto.
      - rewrite IHt; [reflexivity|]. simpl in Hk. tauto. }
    rewrite Hz. lia.
  - destruct (eqb x k) eqn:E.
    + apply eqb_eq in E. subst k. contradiction.
    + rewrite (IH Hin). reflexivity.
Qed.

Context {R : Type} (key : R -> K).

(** Summing a weight group by group over keys that cover the rows gives
    the sum over the rows: every row is in exactly one group. *)
Lemma groups_partition (w : R -> Z) (ks : list K) (rows : list R) :
  NoDup ks -> (forall r, In r rows -> In (key r) ks) ->
  total (map (fun k => total (map w (filter (fun r => eqb (key r) k) rows)))
             ks)
  = total (map w rows).
Proof.
  intros Hnd. induction rows as [|r t IH]; intro Hcover.
  - simpl. unfold total. induction ks; simpl; [reflexivity|].
    inversion Hnd; subst. now rewrite IHks.
  - assert (Hsplit :
      forall l : list K,
        total (map (fun k => total
                      (map w (filter (fun r0 => eqb (key r0) k) (r :: t)))) l)
        = total (map (fun k => if eqb (key r) k then w r else 0) l)
          + total (map (fun k => total
                      (map w (filter (fun r0 => eqb (key r0) k) t))) l)).
    { unfold total. induction l as [|k l IHl]; [reflexivity|].
      cbn [map fold_right]. rewrite IHl. cbn [filter].
      destruct (eqb (key r) k); cbn [map fold_right]; lia. }
    rewrite Hsplit, IH by (intros; apply Hcover; now right).
    rewrite indicator_sum by (auto; apply Hcover; now left).
    reflexivity.
Qed.

Lemma group_by_partition (w : R -> Z) (rows : list R) :
  total (map (fun g => total (map w (snd g))) (group_by eqb key rows))
  = total (map w rows).
Proof.
  unfold group_by. rewrite map_map. cbn [snd].
  apply groups_partition.
  - apply distinct_by_NoDup.
  - intros r Hr. apply distinct_by_In. now apply in_map.
Qed.

Lemma group_by_keys (rows : list R) :
  map fst (group_by eqb key rows) = distinct_by eqb (map key rows).
Proof.
  unfold group_by. rewrite map_map. cbn [fst]. apply map_id.
Qed.

Lemma group_by_In (rows : list R) (k : K) (g : list R) :
  In (k, g) (group_by eqb key rows) ->
  g = filter (fun r => eqb (key r) k) rows /\ g <> [].
Proof.
  unfold group_by. rewrite in_map_iff. intros (k' & [= <- <-] & Hk).
  split; [reflexivity|].
  apply distinct_by_In, in_map_iff in Hk. destruct Hk as (r & <- & Hr).
  intro E.
  assert (Hin : In r (filter (fun r0 => eqb (key r0) (key r)) rows))
    by (apply filter_In; split; [assumption|apply eqb_same]).
  rewrite E in Hin. contradiction.
Qed.

End Grouping.

Lemma distinct_as_generic (ks : list (option string)) :
  SQL.distinct ks = Generic.distinct_by SQL.key_eqb ks.
Proof.
  induction ks as [|k t IH]; simpl; [reflexivity|]. now rewrite IH.
Qed.

Lemma GROUP_BY_as_generic {R} (col : R -> option string) (rows : list R) :
  SQL.GROUP_BY col rows = Generic.group_by SQL.key_eqb col rows.
Proof.
  unfold SQL.GROUP_BY, Generic.group_by. now rewrite distinct_as_generic.
Qed.

Lemma id_eqb_eq (a b : option Z) : Example.id_eqb a b = true <-> a = b.
Proof.
  destruct a as [x|], b as [y|]; simpl; split; intro H;
    try discriminate; try reflexivity.
  - apply Z.eqb_eq in H. now subst.
  - injection H as ->. apply Z.eqb_refl.
Qed.

Lemma total_ones {R} (l : list R) :
  total (map (fun _ => 1) l) = SQL.COUNT_star l.
Proof.
  unfold total, SQL.COUNT_star.
  induction l as [|r t IH]; [reflexivity|].
  cbn [map fold_right List.length]. rewrite IH. lia.
Qed.

Lemma total_app (l1 l2 : list Z) : total (l1 ++ l2) = total l1 + total l2.
Proof.
  unfold total. induction l1 as [|x t IH]; simpl; [reflexivity|].
  rewrite IH. lia.
Qed.

Lemma total_Permutation (l1 l2 : list Z) :
  Permutation l1 l2 -> total l1 = total l2.
Proof.
  unfold total. induction 1; simpl; lia.
Qed.

(** * The rest of the program: ordering *)

Section Ordering.
Import Generic.
Context {R : Type} (before : R -> R -> bool).

Lemma insert_by_Permutation (r : R) (l : list R) :
  Permutation (insert_by before r l) (r :: l).
Proof.
  induction l as [|h t IH]; simpl; [reflexivity|].
  destruct (before h r); [|reflexivity].
  rewrite IH. apply perm_swap.
Qed.

Lemma sort_by_Permutation (l : list R) : Permutation (sort_by before l) l.
Proof.
  induction l as [|h t IH]; simpl; [reflexivity|].
  rewrite insert_by_Permutation. now constructor.
Qed.

Hypothesis before_total : forall a b, before a b = false -> before b a = true.
Hypothesis before_trans :
  forall a b c, before a b = true -> before b c = true -> before a c = true.

Lemma insert_by_sorted (r : R) (l : list R) :
  StronglySorted (fun a b => before a b = true) l ->
  StronglySorted (fun a b => before a b = true) (insert_by before r l).
Proof.
  induction 1 as [|h t Hs IH Hall]; simpl.
  - constructor; constructor.
  - destruct (before h r) eqn:E.
    + constructor; [assumption|].
      apply Forall_forall. intros x Hx.
      apply (Permutation_in _ (insert_by_Permutation r t)) in Hx.
      destruct Hx as [<-|Hx]; [exact E|].
      now apply (proj1 (Forall_forall _ _) Hall).
    + apply before_total in E.
      constructor; [now constructor|].
      constructor; [exact E|].
      apply Forall_forall. intros x Hx.
      apply before_trans with h; [exact E|].
      now apply (proj1 (Forall_forall _ _) Hall).
Qed.

Lemma sort_by_sorted (l : list R) :
  StronglySorted (fun a b => before a b = true) (sort_by before l).
Proof.
  induction l as [|h t IH]; simpl; [constructor|].
  now apply insert_by_sorted.
Qed.

End Ordering.

(** In a sorted list every element of a prefix stands before every element
    of the rest. *)
Lemma sorted_prefix_before_rest {R} (rel : R -> R -> Prop) (l1 l2 : list R) :
  StronglySorted rel (l1 ++ l2) ->
  forall a b, In a l1 -> In b l2 -> rel a b.
Proof.
  induction l1 as [|h t IH]; simpl; intros Hs a b Ha Hb; [contradiction|].
  inversion Hs as [|? ? Hs' Hall]; subst.
  destruct Ha as [<-|Ha].
  - apply (proj1 (Forall_forall _ _) Hall). apply in_or_app. now right.
  - now apply IH.
Qed.

Lemma insert_desc_as_generic {R} (col : R -> option Q) (r : R) (l : list R) :
  SQL.insert_desc col r l
  = Generic.insert_by (fun a b => SQL.desc_before (col a) (col b)) r l.
Proof.
  induction l as [|h t IH]; simpl; [reflexivity|]. now rewrite IH.
Qed.

Lemma ORDER_BY_desc_Permutation {R} (col : R -> option Q) (l : list R) :
  Permutation (SQL.ORDER_BY_desc col l) l.
Proof.
  induction l as [|h t IH]; simpl; [reflexivity|].
  rewrite insert_desc_as_generic, insert_by_Permutation. now constructor.
Qed.

Lemma asc_before_total (a b : option Z) :
  Database.asc_before a b = false -> Database.asc_before b a = true.
Proof.
  destruct a as [x|], b as [y|]; simpl; try congruence.
  rewrite Z.leb_gt, Z.leb_le. lia.
Qed.

Lemma asc_before_trans (a b c : option Z) :
  Database.asc_before a b = true -> Database.asc_before b c = true ->
  Database.asc_before a c = true.
Proof.
  destruct a as [x|], b as [y|], c as [z|]; simpl; try congruence.
  rewrite !Z.leb_le. lia.
Qed.

(** * The rest of the program: properties *)

Section Frames.
Import SQL Expr.
Context {R : Type} (flag : R -> option string) (col : R -> option string).

Lemma flagged_is_Y (f : option string) :
  flagged f = if is_Y f then 1 else 0.
Proof.
  unfold flagged. destruct f as [s|]; simpl; [|reflexivity].
  now destruct (String.eqb s "Y").
Qed.

Lemma fraud_total_is_Y (rows : list R) :
  fraud_total (map flag rows)
  = COUNT_star (filter (fun r => is_Y (flag r)) rows).
Proof.
  unfold fraud_total, COUNT_star.
  induction rows as [|r t IH]; [reflexivity|].
  cbn [map fold_right filter]. rewrite IH, flagged_is_Y.
  destruct (is_Y (flag r)); cbn [List.length]; lia.
Qed.

Lemma fraud_column_sum (agg : option string * list R -> result_row)
      (groups : list (option string * list R)) :
  (forall g, FRAUD_COUNT (agg g) = SUM (map fraud_int (map flag (snd g)))) ->
  column_sum (map FRAUD_COUNT (map agg groups))
  = total (map (fun g => total (map (fun r => flagged (flag r)) (snd g)))
               groups).
Proof.
  intro Hagg. unfold column_sum, total.
  induction groups as [|g t IH]; [reflexivity|].
  cbn [map fold_right]. rewrite <- IH, Hagg, SUM_fraud_int.
  destruct (snd g) as [|r rs]; [reflexivity|].
  cbn [map non_null flat_map app fold_right]. unfold fraud_total.
  cbn [map fold_right]. rewrite map_map. reflexivity.
Qed.

Lemma total_column (agg : option string * list R -> result_row)
      (groups : list (option string * list R)) :
  (forall g, TOTAL_COUNT (agg g) = COUNT_star (snd g)) ->
  total (map TOTAL_COUNT (map agg groups))
  = total (map (fun g => total (map (fun _ => 1) (snd g))) groups).
Proof.
  intro Hagg. rewrite map_map. f_equal. apply map_ext.
  intro g. now rewrite Hagg, total_ones.
Qed.

(** The counts of a grouped frame add up to the table. *)
Lemma grouped_counts (agg : option string * list R -> result_row)
      (rows : list R) :
  (forall g, TOTAL_COUNT (agg g) = COUNT_star (snd g)) ->
  (forall g, FRAUD_COUNT (agg g) = SUM (map fraud_int (map flag (snd g)))) ->
  total (map TOTAL_COUNT (map agg (GROUP_BY col rows))) = COUNT_star rows /\
  column_sum (map FRAUD_COUNT (map agg (GROUP_BY col rows)))
  = COUNT_star (filter (fun r => is_Y (flag r)) rows).
Proof.
  intros Ht Hf. rewrite GROUP_BY_as_generic. split.
  - rewrite (total_column agg _ Ht).
    rewrite (group_by_partition key_eqb key_eqb_eq col).
    apply total_ones.
  - rewrite (fraud_column_sum agg _ Hf).
    rewrite (group_by_partition key_eqb key_eqb_eq col).
    rewrite <- fraud_total_is_Y. unfold fraud_total, total.
    now rewrite map_map.
Qed.

Lemma frame_keys (agg : option string * list R -> result_row)
      (rows : list R) :
  (forall g, key (agg g) = fst g) ->
  map key (map agg (GROUP_BY col rows)) = distinct (map col rows).
Proof.
  intro Hk. rewrite map_map. unfold GROUP_BY. rewrite map_map.
  erewrite map_ext; [apply map_id|]. intro k. now rewrite Hk.
Qed.

End Frames.

Lemma AGE_GROUP_label (age : option Z) : In (Expr.AGE_GROUP age) age_labels.
Proof.
  destruct age as [a|]; [|simpl; tauto].
  destruct (AGE_GROUP_intervals a) as (H1 & H2 & H3 & H4).
  destruct (Z_lt_le_dec a 25) as [L1|L1];
    [rewrite (proj2 H1 L1); simpl; tauto|].
  destruct (Z_le_gt_dec a 40) as [L2|L2];
    [rewrite (proj2 H2 (conj L1 L2)); simpl; tauto|].
  destruct (Z_le_gt_dec a 60) as [L3|L3].
  - rewrite (proj2 H3); [simpl; tauto|lia].
  - rewrite (proj2 H4); [simpl; tauto|lia].
Qed.

Lemma frame_row_count {R} (flag : R -> option string)
      (col : R -> option string) (rows : list R) (r : result_row) :
  In r (map (Overview.aggregate flag) (SQL.GROUP_BY col rows)) \/
  In r (map (Catalog.aggregate flag) (SQL.GROUP_BY col rows)) ->
  TOTAL_COUNT r
  = SQL.COUNT_star (filter (fun x => SQL.key_eqb (col x) (key r)) rows).
Proof.
  intros [H|H].
  - apply Overview_row in H. destruct H as (g & -> & (_ & Ht & _) & _).
    exact Ht.
  - apply Catalog_row in H. destruct H as (g & -> & (_ & Ht & _) & _).
    exact Ht.
Qed.

(** X1. In the gender and age frames of both pages every customer is
    counted in exactly one row: the total counts add up to the number of
    customers and the fraud counts to the number of customers whose flag is
    exactly 'Y' (a missing flag or any other text counts as not flagged). *)
Theorem customers_counted_once (tbl : list customers.row) :
  Forall (fun frame =>
            total (map TOTAL_COUNT frame) = SQL.COUNT_star tbl /\
            column_sum (map FRAUD_COUNT frame) = flagged_customers tbl)
         (gender_frames tbl ++ age_frames tbl).
Proof.
  unfold gender_frames, age_frames, flagged_customers.
  repeat constructor;
    apply (grouped_counts customers.SIU_CUST_YN); reflexivity.
Qed.

(** X2. A gender frame has one row for each value of SEX in the table,
    NULL included, no value twice, and the row counts the customers
    carrying that value. *)
Theorem gender_frame_rows (tbl : list customers.row) :
  Forall (fun frame =>
            NoDup (map key frame) /\
            (forall k, In k (map key frame) <-> In k (map customers.SEX tbl)) /\
            (forall r, In r frame ->
               TOTAL_COUNT r
               = SQL.COUNT_star
                   (filter (fun c => SQL.key_eqb (customers.SEX c) (key r))
                           tbl)))
         (gender_frames tbl).
Proof.
  unfold gender_frames, Overview.gender_fraud_rate, Catalog.fraud_by_gender.
  apply Forall_cons; [|apply Forall_cons; [|apply Forall_nil]];
    (split; [|split]).
  - rewrite frame_keys by reflexivity. apply distinct_NoDup.
  - intro k. rewrite frame_keys by reflexivity. apply distinct_In.
  - intros r Hr. apply (frame_row_count customers.SIU_CUST_YN). now left.
  - rewrite frame_keys by reflexivity. apply distinct_NoDup.
  - intro k. rewrite frame_keys by reflexivity. apply distinct_In.
  - intros r Hr. apply (frame_row_count customers.SIU_CUST_YN). now right.
Qed.

Lemma age_keys_are_labels (tbl : list customers.row) :
  incl (SQL.distinct
          (map (fun r => Some (Expr.AGE_GROUP (customers.AGE r))) tbl))
       (map Some age_labels).
Proof.
  intros k Hk. apply distinct_In, in_map_iff in Hk.
  destruct Hk as (c & <- & _). apply in_map, AGE_GROUP_label.
Qed.

(** X3. An age frame has at most four rows; its keys are labels of the
    CASE, none twice, and a label is present exactly when some customer
    falls into its bucket. *)
Theorem age_frame_rows (tbl : list customers.row) :
  Forall (fun frame =>
            (List.length frame <= 4)%nat /\
            NoDup (map key frame) /\
            (forall k, In k (map key frame) ->
               exists label, k = Some label /\ In label age_labels) /\
            (forall label,
               In (Some label) (map key frame) <->
               exists c, In c tbl /\
                         Expr.AGE_GROUP (customers.AGE c) = label))
         (age_frames tbl).
Proof.
  assert (Hmember : forall label,
             In (Some label)
                (SQL.distinct
                   (map (fun r => Some (Expr.AGE_GROUP (customers.AGE r)))
                        tbl)) <->
             exists c, In c tbl /\ Expr.AGE_GROUP (customers.AGE c) = label).
  { intro label. rewrite distinct_In, in_map_iff. split.
    - intros (c & [= <-] & Hc). now exists c.
    - intros (c & Hc & <-). now exists c. }
  assert (Hlabel : forall k,
             In k (SQL.distinct
                     (map (fun r => Some (Expr.AGE_GROUP (customers.AGE r)))
                          tbl)) ->
             exists label, k = Some label /\ In label age_labels).
  { intros k Hk. apply age_keys_are_labels, in_map_iff in Hk.
    destruct Hk as (label & <- & Hl). now exists label. }
  assert (Hlen : (List.length
                    (SQL.distinct
                       (map (fun r => Some (Expr.AGE_GROUP (customers.AGE r)))
                            tbl)) <= 4)%nat).
  { change 4%nat with (List.length (map Some age_labels)).
    apply NoDup_incl_length; [apply distinct_NoDup|apply age_keys_are_labels]. }
  unfold age_frames, Overview.age_fraud_rate, Catalog.fraud_by_age_group.
  apply Forall_cons; [|apply Forall_cons; [|apply Forall_nil]];
    (split; [|split; [|split]]).
  - rewrite <- (length_map key), frame_keys by reflexivity. exact Hlen.
  - rewrite frame_keys by reflexivity. apply distinct_NoDup.
  - rewrite frame_keys by reflexivity. apply Hlabel.
  - rewrite frame_keys by reflexivity. apply Hmember.
  - rewrite <- (length_map key), frame_keys by reflexivity. exact Hlen.
  - rewrite frame_keys by reflexivity. apply distinct_NoDup.
  - rewrite frame_keys by reflexivity. apply Hlabel.
  - rewrite frame_keys by reflexivity. apply Hmember.
Qed.

Section RoundingError.
Local Open Scope Q_scope.




Lemma spec_rate_scaled (fraud total : Z) :
  (1 <= total)%Z ->
  spec_rate fraud total * inject_Z total == inject_Z fraud * 100.
Proof.
  intro Ht. unfold spec_rate. field.
  change 0 with (inject_Z 0). rewrite inject_Z_injective. lia.
Qed.

Lemma spec_rate_zero (fraud total : Z) :
  (1 <= total)%Z -> (spec_rate fraud total == 0 <-> fraud = 0%Z).
Proof.
  intro Ht. pose proof (spec_rate_scaled fraud total Ht) as Hs. split.
  - intro H. rewrite H in Hs.
    apply (proj1 (inject_Z_injective fraud 0)).
    change (inject_Z 0) with 0. lra.
  - intros ->. unfold spec_rate. change (inject_Z 0) with 0.
    unfold Qdiv. now rewrite !Qmult_0_l.
Qed.

Lemma spec_rate_hundred (fraud total : Z) :
  (1 <= total)%Z -> (spec_rate fraud total == 100 <-> fraud = total).
Proof.
  intro Ht. pose proof (spec_rate_scaled fraud total Ht) as Hs. split.
  - intro H. rewrite H in Hs.
    apply (proj1 (inject_Z_injective fraud total)). lra.
  - intros ->. unfold spec_rate. field.
    change 0 with (inject_Z 0). rewrite inject_Z_injective. lia.
Qed.

End RoundingError.


Lemma GROUP_BY_nonempty {R} (col : R -> option string) (rows : list R) :
  forall g, In g (SQL.GROUP_BY col rows) -> snd g <> [].
Proof.
  intros [k g] Hg. apply GROUP_BY_In in Hg.
  destruct Hg as (_ & r & Hr & _). cbn [snd]. intros ->. contradiction.
Qed.


(** The tie of the comment at [SQL.round2]: for 23 flagged of 4000 the exact
    rate 0.575 rounds to 0.58, while the DOUBLE quotient lies just below
    0.575 and the engine shows 0.57. *)
Lemma overview_tie_in_double :
  Binary64.overview_rate flags_23_of_4000
  = Some (Binary64.double 57 / Binary64.double 100)%float /\
  rate_eq (SQL.ROUND2 (Expr.sum_count_rate flags_23_of_4000)) (58 # 100).
Proof.
  split; [vm_compute; reflexivity|]. vm_compute. reflexivity.
Qed.


(** X6. In a catalog frame a rate of 0 means that nobody in the group is
    flagged and a rate of 100 that everybody is. *)
Theorem rate_extremes
        (q : Catalog.analysis_query) (contracts : list cntt.row)
        (tbl : list customers.row) (r : result_row) :
  In r (Catalog.result q contracts tbl) ->
  (rate_eq (FRAUD_RATE r) 0 <-> FRAUD_COUNT r = Some 0) /\
  (rate_eq (FRAUD_RATE r) 100 <-> FRAUD_COUNT r = Some (TOTAL_COUNT r)).
Proof.
  intro H. apply Catalog_result_row in H.
  destruct H as (fraud & -> & _ & Hone & rate & -> & Hv).
  cbn [rate_eq]. rewrite Hv. split.
  - rewrite (spec_rate_zero _ _ Hone). split; congruence.
  - rewrite (spec_rate_hundred _ _ Hone). split; congruence.
Qed.

Section ProductFrame.
Import SQL.

Lemma GROUP_BY_nil_iff {R} (col : R -> option string) (rows : list R) :
  GROUP_BY col rows = [] <-> rows = [].
Proof.
  split; [|now intros ->].
  destruct rows as [|r t]; [reflexivity|discriminate].
Qed.

Lemma JOIN_nil_iff (contracts : list cntt.row) (tbl : list customers.row) :
  Catalog.JOIN contracts tbl = [] <->
  forall c, In c contracts -> has_customer tbl c = false.
Proof.
  split.
  - intros E c Hc. destruct (has_customer tbl c) eqn:H; [|reflexivity].
    apply existsb_exists in H. destruct H as (u & Hu & Hm).
    assert (Hin : In (c, u) (Catalog.JOIN contracts tbl))
      by (apply JOIN_In; tauto).
    rewrite E in Hin. contradiction.
  - intro H. destruct (Catalog.JOIN contracts tbl) as [|[c u] t] eqn:E;
      [reflexivity|].
    assert (Hin : In (c, u) (Catalog.JOIN contracts tbl))
      by (rewrite E; now left).
    apply JOIN_In in Hin. destruct Hin as (Hc & Hu & Hm).
    specialize (H c Hc). unfold has_customer in H.
    assert (Ht : existsb (Catalog.matches c) tbl = true)
      by (apply existsb_exists; now exists u).
    congruence.
Qed.

Lemma fraud_by_products_unfold (contracts : list cntt.row)
      (tbl : list customers.row) :
  Catalog.fraud_by_products contracts tbl
  = LIMIT 5 (ORDER_BY_desc FRAUD_RATE (product_groups contracts tbl)).
Proof. reflexivity. Qed.

Lemma product_groups_nil_iff (contracts : list cntt.row)
      (tbl : list customers.row) :
  product_groups contracts tbl = [] <-> Catalog.JOIN contracts tbl = [].
Proof.
  unfold product_groups. rewrite <- (GROUP_BY_nil_iff
    (fun p : cntt.row * customers.row => cntt.GOOD_CLSF_CDNM (fst p))).
  destruct (GROUP_BY _ (Catalog.JOIN contracts tbl));
    split; intro H; try reflexivity; discriminate.
Qed.

Lemma product_groups_keys (contracts : list cntt.row)
      (tbl : list customers.row) :
  map key (product_groups contracts tbl)
  = distinct (map (fun p => cntt.GOOD_CLSF_CDNM (fst p))
                  (Catalog.JOIN contracts tbl)).
Proof. unfold product_groups. now apply frame_keys. Qed.

Lemma product_rates (contracts : list cntt.row) (tbl : list customers.row)
      (r : result_row) :
  In r (product_groups contracts tbl) -> exists q, FRAUD_RATE r = Some q.
Proof.
  intro H. apply Catalog_row in H.
  destruct H as (g & _ & _ & q & Hq & _). now exists q.
Qed.

End ProductFrame.

(** X7. The product query returns no row exactly when no contract has a
    customer with the same, non-NULL id; every row it returns carries the
    product name of a contract that has one. *)
Theorem product_rows_come_from_matched_contracts
        (contracts : list cntt.row) (tbl : list customers.row) :
  (Catalog.fraud_by_products contracts tbl = [] <->
   forall c, In c contracts -> has_customer tbl c = false) /\
  (forall r, In r (Catalog.fraud_by_products contracts tbl) ->
     exists c id,
       In c contracts /\ cntt.GOOD_CLSF_CDNM c = key r /\
       cntt.CUST_ID c = Some id /\
       In (Some id) (map customers.CUST_ID tbl)).
Proof.
  split.
  - rewrite <- JOIN_nil_iff, <- product_groups_nil_iff.
    rewrite fraud_by_products_unfold.
    pose proof (ORDER_BY_desc_Permutation FRAUD_RATE
                  (product_groups contracts tbl)) as Hp.
    split.
    + intro E.
      destruct (SQL.ORDER_BY_desc FRAUD_RATE (product_groups contracts tbl))
        as [|x t] eqn:Es; [|discriminate].
      now apply Permutation_nil.
    + intros E. rewrite E. reflexivity.
  - intros r Hr. apply fraud_by_products_In in Hr.
    assert (Hk : In (key r) (map key (product_groups contracts tbl)))
      by (now apply in_map).
    rewrite product_groups_keys in Hk.
    apply distinct_In, in_map_iff in Hk.
    destruct Hk as ([c u] & Hkey & Hin). cbn [fst] in Hkey.
    apply JOIN_In in Hin. destruct Hin as (Hc & Hu & Hm).
    unfold Catalog.matches, SQL.eq_int in Hm.
    destruct (cntt.CUST_ID c) as [x|] eqn:Ec; [|discriminate].
    destruct (customers.CUST_ID u) as [y|] eqn:Eu; [|discriminate].
    cbn [SQL.lift2 SQL.holds] in Hm.
    destruct (Z.eqb_spec x y) as [Exy|Exy]; [|discriminate]. subst y.
    exists c, x. repeat split; try assumption.
    rewrite <- Eu. now apply in_map.
Qed.

(** X8. LIMIT 5 keeps the highest rates: a product group that is left out
    has a rate no greater than the rate of any row that is shown. *)
Theorem top5_keeps_highest_rates
        (contracts : list cntt.row) (tbl : list customers.row)
        (shown dropped : result_row) :
  In shown (Catalog.fraud_by_products contracts tbl) ->
  In dropped (product_groups contracts tbl) ->
  ~ In dropped (Catalog.fraud_by_products contracts tbl) ->
  exists q q', FRAUD_RATE shown = Some q /\ FRAUD_RATE dropped = Some q' /\
               (q' <= q)%Q.
Proof.
  rewrite fraud_by_products_unfold. unfold SQL.LIMIT.
  set (sorted := SQL.ORDER_BY_desc FRAUD_RATE (product_groups contracts tbl)).
  intros Hs Hd Hnot.
  assert (Hsorted : StronglySorted (in_order FRAUD_RATE)
                      (firstn 5 sorted ++ skipn 5 sorted)).
  { rewrite firstn_skipn. apply ORDER_BY_desc_sorted. }
  assert (Hrest : In dropped (skipn 5 sorted)).
  { assert (Hin : In dropped sorted) by (now apply ORDER_BY_desc_In).
    rewrite <- (firstn_skipn 5 sorted) in Hin.
    apply in_app_or in Hin. tauto. }
  pose proof (sorted_prefix_before_rest _ _ _ Hsorted _ _ Hs Hrest) as Hord.
  assert (Hs' : In shown (product_groups contracts tbl)).
  { apply (ORDER_BY_desc_In FRAUD_RATE).
    rewrite <- (firstn_skipn 5). apply in_or_app. now left. }
  destruct (product_rates _ _ _ Hs') as (q & Hq).
  destruct (product_rates _ _ _ Hd) as (q' & Hq').
  exists q, q'. repeat split; try assumption.
  unfold in_order in Hord. rewrite Hq, Hq' in Hord.
  now apply Qle_bool_iff.
Qed.

(** X9. The product frame shows five groups, or all of them when there are
    fewer, each product name at most once; with at most five groups it is
    a reordering of all groups. *)
Theorem product_frame_size
        (contracts : list cntt.row) (tbl : list customers.row) :
  List.length (Catalog.fraud_by_products contracts tbl)
  = Nat.min 5 (List.length (product_groups contracts tbl)) /\
  NoDup (map key (Catalog.fraud_by_products contracts tbl)) /\
  ((List.length (product_groups contracts tbl) <= 5)%nat ->
   Permutation (Catalog.fraud_by_products contracts tbl)
               (product_groups contracts tbl)).
Proof.
  rewrite fraud_by_products_unfold. unfold SQL.LIMIT.
  pose proof (ORDER_BY_desc_Permutation FRAUD_RATE
                (product_groups contracts tbl)) as Hp.
  set (sorted := SQL.ORDER_BY_desc FRAUD_RATE (product_groups contracts tbl))
    in *.
  split; [|split].
  - rewrite length_firstn. now rewrite (Permutation_length Hp).
  - assert (Hnd : NoDup (map key sorted)).
    { apply (Permutation_NoDup (l := map key (product_groups contracts tbl))).
      - apply Permutation_map. now symmetry.
      - rewrite product_groups_keys. apply distinct_NoDup. }
    rewrite <- (firstn_skipn 5 sorted), map_app in Hnd.
    now apply NoDup_app_remove_r in Hnd.
  - intro Hle. rewrite firstn_all2; [exact Hp|].
    now rewrite (Permutation_length Hp).
Qed.

Section UniqueIds.
Import SQL.

Lemma non_null_In {A} (col : list (option A)) (x : A) :
  In x (non_null col) <-> In (Some x) col.
Proof.
  unfold non_null. rewrite in_flat_map. split.
  - intros ([a|] & Hin & Hx); simpl in Hx; [|contradiction].
    destruct Hx as [->|[]]. exact Hin.
  - intro H. exists (Some x). split; [exact H|now left].
Qed.

Lemma non_null_cons {A} (v : option A) (col : list (option A)) :
  non_null (v :: col)
  = match v with Some a => a :: non_null col | None => non_null col end.
Proof. now destruct v. Qed.

Lemma matches_ids (c : cntt.row) (u : customers.row) :
  Catalog.matches c u = true <->
  exists id, cntt.CUST_ID c = Some id /\ customers.CUST_ID u = Some id.
Proof.
  unfold Catalog.matches, eq_int.
  destruct (cntt.CUST_ID c) as [x|], (customers.CUST_ID u) as [y|];
    cbn [lift2 holds].
  - destruct (Z.eqb_spec x y) as [->|Hne]; split.
    + intros _. now exists y.
    + reflexivity.
    + discriminate.
    + intros (id & [= <-] & [= <-]). congruence.
  - split; [discriminate|]. intros (id & _ & H). discriminate.
  - split; [discriminate|]. intros (id & H & _). discriminate.
  - split; [discriminate|]. intros (id & H & _). discriminate.
Qed.

(** With unique customer ids a contract joins with at most one customer. *)
Lemma matches_at_most_once (tbl : list customers.row) (c : cntt.row) :
  NoDup (non_null (map customers.CUST_ID tbl)) ->
  List.length (filter (Catalog.matches c) tbl)
  = if has_customer tbl c then 1%nat else 0%nat.
Proof.
  unfold has_customer. induction tbl as [|u t IH]; [reflexivity|].
  cbn [map filter existsb]. rewrite non_null_cons. intro Hnd.
  destruct (Catalog.matches c u) eqn:Em; cbn [orb].
  - apply matches_ids in Em. destruct Em as (id & Hc & Hu).
    rewrite Hu in Hnd. inversion Hnd as [|? ? Hnot Hrest]; subst.
    assert (Hnone : has_customer t c = false).
    { unfold has_customer. destruct (existsb (Catalog.matches c) t) eqn:E;
        [|reflexivity].
      apply existsb_exists in E. destruct E as (u' & Hu' & Hm').
      apply matches_ids in Hm'. destruct Hm' as (id' & Hc' & Hid').
      exfalso. apply Hnot. apply non_null_In.
      rewrite Hc in Hc'. injection Hc' as <-.
      rewrite <- Hid'. now apply in_map. }
    now rewrite (unmatched_contract _ _ Hnone).
  - apply IH. destruct (customers.CUST_ID u); [|exact Hnd].
    now inversion Hnd.
Qed.

Lemma JOIN_length_unique (contracts : list cntt.row)
      (tbl : list customers.row) :
  NoDup (non_null (map customers.CUST_ID tbl)) ->
  List.length (Catalog.JOIN contracts tbl)
  = List.length (filter (has_customer tbl) contracts).
Proof.
  intro Hnd. unfold Catalog.JOIN.
  induction contracts as [|c t IH]; [reflexivity|].
  cbn [flat_map filter]. rewrite length_app, length_map, IH.
  rewrite (matches_at_most_once tbl c Hnd).
  now destruct (has_customer tbl c).
Qed.

End UniqueIds.

(** X10. The policy counts of all product groups add up to the number of
    joined pairs; when the customer ids are unique this is the number of
    contracts that have a customer, each counted once. *)
Theorem policies_counted_once
        (contracts : list cntt.row) (tbl : list customers.row) :
  total (map TOTAL_COUNT (product_groups contracts tbl))
  = SQL.COUNT_star (Catalog.JOIN contracts tbl) /\
  (NoDup (SQL.non_null (map customers.CUST_ID tbl)) ->
   total (map TOTAL_COUNT (product_groups contracts tbl))
   = SQL.COUNT_star (filter (has_customer tbl) contracts)).
Proof.
  assert (Hsum : total (map TOTAL_COUNT (product_groups contracts tbl))
                 = SQL.COUNT_star (Catalog.JOIN contracts tbl)).
  { unfold product_groups.
    apply (grouped_counts (fun p => customers.SIU_CUST_YN (snd p)));
      reflexivity. }
  split; [exact Hsum|].
  intro Hnd. rewrite Hsum. unfold SQL.COUNT_star.
  now rewrite (JOIN_length_unique contracts tbl Hnd).
Qed.

(** X11. Whatever the tab renders is at most one widget; a frame is
    rendered only when the button was pressed and the engine returned that
    frame, an error only when the engine raised and then with the text
    "Error: " followed by the engine's message. *)
Theorem custom_query_renders_only_engine_output
        (execute_df : string -> CustomQuery.outcome)
        (button : bool) (query : string) (ws : list CustomQuery.widget) :
  CustomQuery.custom_query execute_df button query = CustomQuery.Rendered ws ->
  (List.length ws <= 1)%nat /\
  (forall t, In (CustomQuery.dataframe t) ws ->
     button = true /\ execute_df query = CustomQuery.Returns t) /\
  (forall text, In (CustomQuery.error text) ws ->
     button = true /\
     exists e, execute_df query = CustomQuery.Raises e /\
               text = "Error: " ++ e).
Proof.
  unfold CustomQuery.custom_query.
  destruct button; [destruct (execute_df query) as [t|e|e]|];
    intro H; try discriminate; injection H as <-; cbn [List.length In].
  - split; [lia|]. split.
    + intros t' [[= <-]|[]]. now split.
    + intros text [E|[]]. discriminate.
  - split; [lia|]. split.
    + intros t' [E|[]]. discriminate.
    + intros text [[= <-]|[]]. split; [reflexivity|]. now exists e.
  - split; [lia|]. split; intros ? [].
Qed.

Section MetricFacts.
Import SQL.

Lemma nodup_length_le (l : list Z) :
  (List.length (nodup Z.eq_dec l) <= List.length l)%nat.
Proof.
  induction l as [|x t IH]; simpl; [lia|].
  destruct (in_dec Z.eq_dec x t); simpl; lia.
Qed.

Lemma nodup_length_eq (l : list Z) :
  List.length (nodup Z.eq_dec l) = List.length l <-> NoDup l.
Proof.
  split.
  - induction l as [|x t IH]; simpl; [constructor|].
    pose proof (nodup_length_le t) as Hle.
    destruct (in_dec Z.eq_dec x t) as [Hin|Hnot]; simpl; intro H; [lia|].
    constructor; [exact Hnot|]. apply IH. lia.
  - intro H. now rewrite nodup_fixed_point.
Qed.

Lemma non_null_length_le {A} (col : list (option A)) :
  (List.length (non_null col) <= List.length col)%nat.
Proof.
  induction col as [|v t IH]; [simpl; lia|].
  rewrite non_null_cons. destruct v; simpl; lia.
Qed.

Lemma non_null_length_eq {A} (col : list (option A)) :
  List.length (non_null col) = List.length col <-> ~ In None col.
Proof.
  induction col as [|v t IH]; [simpl; tauto|].
  rewrite non_null_cons. pose proof (non_null_length_le t) as Hle.
  destruct v as [a|]; cbn [List.length In].
  - split.
    + intros H [E|Hin]; [discriminate|]. apply IH in Hin; [exact Hin|lia].
    + intro H. f_equal. apply IH. tauto.
  - split; [lia|]. intro H. exfalso. apply H. now left.
Qed.

Lemma non_null_all {A} (col : list (option A)) :
  ~ In None col -> map Some (non_null col) = col.
Proof.
  induction col as [|v t IH]; [reflexivity|].
  rewrite non_null_cons. cbn [In]. intro H.
  destruct v as [a|]; [|exfalso; apply H; now left].
  cbn [map]. f_equal. apply IH. tauto.
Qed.

Lemma NoDup_map_Some {A} (l : list A) : NoDup l -> NoDup (map Some l).
Proof.
  induction 1 as [|x t Hx Hnd IH]; simpl; constructor; [|exact IH].
  rewrite in_map_iff. intros (y & [= ->] & Hy). contradiction.
Qed.

Lemma count_bound (col : list (option Z)) :
  Metrics.count col <= COUNT_star col /\
  (Metrics.count col = COUNT_star col <-> ~ In None col).
Proof.
  unfold Metrics.count, COUNT_star.
  pose proof (non_null_length_le col) as Hle.
  rewrite <- non_null_length_eq. split; [lia|]. split; lia.
Qed.

Lemma nunique_bound (col : list (option Z)) :
  0 <= Metrics.nunique col <= Metrics.count col /\
  (Metrics.nunique col = COUNT_star col <-> NoDup col /\ ~ In None col).
Proof.
  unfold Metrics.nunique, Metrics.count, COUNT_star.
  pose proof (nodup_length_le (non_null col)) as H1.
  pose proof (non_null_length_le col) as H2.
  split; [lia|]. split.
  - intro H.
    assert (Hc : List.length (non_null col) = List.length col) by lia.
    assert (Hn : List.length (nodup Z.eq_dec (non_null col))
                 = List.length (non_null col)) by lia.
    apply non_null_length_eq in Hc. apply nodup_length_eq in Hn.
    split; [|exact Hc].
    rewrite <- (non_null_all col Hc). now apply NoDup_map_Some.
  - intros [Hnd Hnone].
    assert (Hn : NoDup (non_null col)).
    { rewrite <- (non_null_all col Hnone) in Hnd.
      now apply NoDup_map_inv in Hnd. }
    apply nodup_length_eq in Hn. apply non_null_length_eq in Hnone. lia.
Qed.

Lemma nunique_metric {R} (id : R -> option Z) (df : list R) :
  0 <= Metrics.nunique (map id df) <= COUNT_star df /\
  (Metrics.nunique (map id df) = COUNT_star df <->
   NoDup (map id df) /\ ~ In None (map id df)).
Proof.
  rewrite <- (COUNT_star_map id).
  pose proof (nunique_bound (map id df)) as [Hb Hiff].
  pose proof (count_bound (map id df)) as [Hc _].
  split; [lia|exact Hiff].
Qed.

Lemma count_metric {R} (id : R -> option Z) (df : list R) :
  0 <= Metrics.count (map id df) <= COUNT_star df /\
  (Metrics.count (map id df) = COUNT_star df <-> ~ In None (map id df)).
Proof.
  rewrite <- (COUNT_star_map id).
  pose proof (count_bound (map id df)) as [Hc Hiff].
  split; [|exact Hiff]. unfold Metrics.count in *. lia.
Qed.

End MetricFacts.

(** X12. The Total Customers and Total Policies metrics count distinct
    ids and never exceed the number of rows; each equals the number of rows
    exactly when no id is missing and no id occurs twice.  Total Claims
    counts the claims whose policy number is present. *)
Theorem overview_metrics
        (customers_df : list customers.row) (cntt_df : list cntt.row)
        (claim_df : list claim.row) :
  (0 <= Metrics.total_customers customers_df <= SQL.COUNT_star customers_df /\
   (Metrics.total_customers customers_df = SQL.COUNT_star customers_df <->
    NoDup (map customers.CUST_ID customers_df) /\
    ~ In None (map customers.CUST_ID customers_df))) /\
  (0 <= Metrics.total_policies cntt_df <= SQL.COUNT_star cntt_df /\
   (Metrics.total_policies cntt_df = SQL.COUNT_star cntt_df <->
    NoDup (map cntt.POLY_NO cntt_df) /\
    ~ In None (map cntt.POLY_NO cntt_df))) /\
  (0 <= Metrics.total_claims claim_df <= SQL.COUNT_star claim_df /\
   (Metrics.total_claims claim_df = SQL.COUNT_star claim_df <->
    ~ In None (map claim.POLY_NO claim_df))).
Proof.
  unfold Metrics.total_customers, Metrics.total_policies, Metrics.total_claims.
  split; [apply nunique_metric|split; [apply nunique_metric|]].
  apply count_metric.
Qed.

Lemma firstn_StronglySorted {R} (rel : R -> R -> Prop) (n : nat) (l : list R) :
  StronglySorted rel l -> StronglySorted rel (firstn n l).
Proof.
  intro H. revert n.
  induction H as [|h t Hs IH Hall]; intros [|n]; simpl; try constructor.
  - apply IH.
  - apply Forall_forall. intros x Hx.
    apply (proj1 (Forall_forall _ _) Hall).
    rewrite <- (firstn_skipn n t). apply in_or_app. now left.
Qed.

Lemma StronglySorted_weaken {R} (rel rel' : R -> R -> Prop) (l : list R) :
  (forall a b, rel a b -> rel' a b) ->
  StronglySorted rel l -> StronglySorted rel' l.
Proof.
  intro Himp. induction 1 as [|h t Hs IH Hall]; constructor; [exact IH|].
  apply Forall_forall. intros x Hx. apply Himp.
  now apply (proj1 (Forall_forall _ _) Hall).
Qed.

Lemma total_firstn_le (n : nat) (l : list Z) :
  Forall (fun x => 0 <= x) l -> total (firstn n l) <= total l.
Proof.
  unfold total. intro H. revert n.
  induction H as [|x t Hx Ht IH]; intros [|n]; simpl; try lia.
  - assert (0 <= fold_right Z.add 0 t).
    { clear IH. induction Ht; simpl; lia. }
    lia.
  - specialize (IH n). lia.
Qed.

Lemma sort_values_sorts {R} (by_col : R -> option Z) (df : list R) :
  Permutation (Database.sort_values by_col df) df /\
  StronglySorted (ascending by_col) (Database.sort_values by_col df).
Proof.
  unfold Database.sort_values. split; [apply sort_by_Permutation|].
  apply (sort_by_sorted (fun a b => Database.asc_before (by_col a) (by_col b))).
  - intros a b. apply asc_before_total.
  - intros a b c. apply asc_before_trans.
Qed.

(** X13. Each table of the Insurance Database page is shown with all of
    its rows, none lost or repeated, in ascending order of its id column,
    rows without an id last. *)
Theorem table_viewer_sorts
        (customers_df : list customers.row) (cntt_df : list cntt.row)
        (claim_df : list claim.row) :
  (Permutation (Database.view_customers customers_df) customers_df /\
   StronglySorted (ascending customers.CUST_ID)
                  (Database.view_customers customers_df)) /\
  (Permutation (Database.view_cntt cntt_df) cntt_df /\
   StronglySorted (ascending cntt.POLY_NO) (Database.view_cntt cntt_df)) /\
  (Permutation (Database.view_claim claim_df) claim_df /\
   StronglySorted (ascending claim.POLY_NO) (Database.view_claim claim_df)).
Proof.
  repeat apply conj; apply sort_values_sorts.
Qed.

Section TopClaimants.
Import Example.

Local Abbreviation before := claimant_before.
Local Abbreviation groups := claimant_groups.

Lemma claimant_groups_In (claim_df : list claim.row) (r : claimant) :
  In r (groups claim_df) ->
  1 <= TOTAL_CLAIMS r /\
  TOTAL_CLAIMS r
  = SQL.COUNT_star
      (filter (fun c => id_eqb (claim.CUST_ID c) (CUST_ID r)) claim_df).
Proof.
  unfold claimant_groups. rewrite in_map_iff. intros ([k g] & <- & Hg).
  apply (group_by_In id_eqb id_eqb_eq) in Hg. destruct Hg as (-> & Hne).
  cbn [fst snd TOTAL_CLAIMS CUST_ID]. split; [|reflexivity].
  unfold SQL.COUNT_star.
  destruct (filter _ claim_df); [congruence|cbn [List.length]; lia].
Qed.

Lemma claimant_groups_total (claim_df : list claim.row) :
  total (map TOTAL_CLAIMS (groups claim_df)) = SQL.COUNT_star claim_df.
Proof.
  unfold claimant_groups. rewrite map_map. cbn [TOTAL_CLAIMS].
  rewrite <- (total_ones claim_df).
  rewrite <- (group_by_partition id_eqb id_eqb_eq claim.CUST_ID).
  f_equal. apply map_ext. intro g. now rewrite total_ones.
Qed.

Lemma claimant_groups_keys (claim_df : list claim.row) :
  NoDup (map CUST_ID (groups claim_df)).
Proof.
  unfold claimant_groups. rewrite map_map. cbn [CUST_ID].
  change (map (fun x => fst x) (Generic.group_by id_eqb claim.CUST_ID claim_df))
    with (map fst (Generic.group_by id_eqb claim.CUST_ID claim_df)).
  rewrite group_by_keys. apply (distinct_by_NoDup id_eqb id_eqb_eq).
Qed.

(** X14. The example query of the Custom Query tab, evaluated on the claim
    table, lists at most ten customers, none twice, with non-increasing
    claim counts; each count is the number of that customer's claims, at
    least 1, and together they do not exceed the number of claims. *)
Theorem top_claimants_frame (claim_df : list claim.row) :
  (List.length (top_claimants claim_df) <= 10)%nat /\
  StronglySorted (fun a b => TOTAL_CLAIMS b <= TOTAL_CLAIMS a)
                 (top_claimants claim_df) /\
  NoDup (map CUST_ID (top_claimants claim_df)) /\
  (forall r, In r (top_claimants claim_df) ->
     1 <= TOTAL_CLAIMS r /\
     TOTAL_CLAIMS r
     = SQL.COUNT_star
         (filter (fun c => id_eqb (claim.CUST_ID c) (CUST_ID r)) claim_df)) /\
  total (map TOTAL_CLAIMS (top_claimants claim_df)) <= SQL.COUNT_star claim_df.
Proof.
  change (top_claimants claim_df)
    with (firstn 10 (Generic.sort_by before (groups claim_df))).
  pose proof (sort_by_Permutation before (groups claim_df)) as Hp.
  set (sorted := Generic.sort_by before (groups claim_df)) in *.
  assert (Hin : forall r, In r (firstn 10 sorted) -> In r (groups claim_df)).
  { intros r Hr. apply (Permutation_in _ Hp).
    rewrite <- (firstn_skipn 10 sorted). apply in_or_app. now left. }
  split; [apply firstn_le_length|]. split; [|split; [|split]].
  - apply firstn_StronglySorted.
    apply (StronglySorted_weaken (fun a b => before a b = true)).
    + intros a b H. now apply Z.leb_le.
    + apply sort_by_sorted; unfold claimant_before.
      * intros a b. rewrite Z.leb_gt, Z.leb_le. lia.
      * intros a b c. rewrite !Z.leb_le. lia.
  - assert (Hnd : NoDup (map CUST_ID sorted)).
    { apply (Permutation_NoDup (l := map CUST_ID (groups claim_df))).
      - apply Permutation_map. now symmetry.
      - apply claimant_groups_keys. }
    rewrite <- (firstn_skipn 10 sorted), map_app in Hnd.
    now apply NoDup_app_remove_r in Hnd.
  - intros r Hr. apply claimant_groups_In. now apply Hin.
  - rewrite <- claimant_groups_total.
    rewrite <- (total_Permutation _ _ (Permutation_map TOTAL_CLAIMS Hp)).
    rewrite <- firstn_map. apply total_firstn_le.
    apply Forall_forall. intros x Hx. apply in_map_iff in Hx.
    destruct Hx as (r & <- & Hr). apply (Permutation_in _ Hp) in Hr.
    apply claimant_groups_In in Hr. lia.
Qed.

End TopClaimants.

Lemma filter_absorbs {A} (f g : A -> bool) (l : list A) :
  (forall x, In x l -> f x = true -> g x = true) ->
  filter f (filter g l) = filter f l.
Proof.
  induction l as [|x t IH]; intro H; [reflexivity|]. cbn [filter].
  assert (IH' : filter f (filter g t) = filter f t)
    by (apply IH; intros y Hy; apply H; now right).
  destruct (g x) eqn:Eg; cbn [filter].
  - now rewrite IH'.
  - destruct (f x) eqn:Ef; [|exact IH'].
    rewrite (H x (or_introl eq_refl) Ef) in Eg. discriminate.
Qed.

Lemma JOIN_drops_customers_without_contract
      (contracts cs : list cntt.row) (tbl : list customers.row) :
  incl cs contracts ->
  Catalog.JOIN cs (filter (has_contract contracts) tbl) = Catalog.JOIN cs tbl.
Proof.
  unfold Catalog.JOIN. induction cs as [|c t IH]; intro Hincl; [reflexivity|].
  cbn [flat_map]. rewrite IH by (intros x Hx; apply Hincl; now right).
  rewrite filter_absorbs; [reflexivity|].
  intros u _ Hm. unfold has_contract. apply existsb_exists.
  exists c. split; [apply Hincl; now left|exact Hm].
Qed.

(** X15. Customers that no contract refers to, among them those without an
    id, take no part in the product query: removing them from the
    customers table beforehand leaves the frame unchanged. *)
Theorem customers_without_contract_ignored
        (contracts : list cntt.row) (tbl : list customers.row) :
  Catalog.fraud_by_products contracts tbl
  = Catalog.fraud_by_products contracts
      (filter (has_contract contracts) tbl) /\
  (forall u, customers.CUST_ID u = None -> has_contract contracts u = false).
Proof.
  split.
  - unfold Catalog.fraud_by_products.
    now rewrite (JOIN_drops_customers_without_contract contracts contracts tbl)
      by apply incl_refl.
  - intros u Hu. unfold has_contract.
    destruct (existsb (fun c => Catalog.matches c u) contracts) eqn:E;
      [|reflexivity].
    apply existsb_exists in E. destruct E as (c & _ & Hm).
    apply matches_ids in Hm. destruct Hm as (id & _ & Hid). congruence.
Qed.

(** * The added properties at the scenarios *)


Lemma rate_extremes_scenario :
  In scenario_row_F
     (Catalog.result Catalog.Fraud_by_Gender [] scenario_customers) /\
  (rate_eq (FRAUD_RATE scenario_row_F) 0 <->
   FRAUD_COUNT scenario_row_F = Some 0) /\
  (rate_eq (FRAUD_RATE scenario_row_F) 100 <->
   FRAUD_COUNT scenario_row_F = Some (TOTAL_COUNT scenario_row_F)).
Proof.
  assert (H : In scenario_row_F
                 (Catalog.result Catalog.Fraud_by_Gender [] scenario_customers))
    by (right; left; reflexivity).
  split; [exact H|].
  exact (rate_extremes _ _ _ _ H).
Defined.

Lemma product_rows_come_from_matched_contracts_scenario :
  exists c id,
    In c scenario_contracts /\
    cntt.GOOD_CLSF_CDNM c = key scenario_row_term /\
    cntt.CUST_ID c = Some id /\
    In (Some id) (map customers.CUST_ID scenario_customers).
Proof.
  apply (proj2 (product_rows_come_from_matched_contracts
                  scenario_contracts scenario_customers)).
  left. reflexivity.
Defined.

Lemma top5_keeps_highest_rates_scenario :
  exists q q',
    FRAUD_RATE six_products_shown = Some q /\
    FRAUD_RATE six_products_dropped = Some q' /\ (q' <= q)%Q.
Proof.
  apply (top5_keeps_highest_rates six_products scenario_customers).
  - right. right. left. reflexivity.
  - right. right. left. reflexivity.
  - vm_compute. intuition discriminate.
Defined.

Lemma product_frame_size_scenario :
  Permutation (Catalog.fraud_by_products scenario_contracts scenario_customers)
              (product_groups scenario_contracts scenario_customers).
Proof.
  apply (product_frame_size scenario_contracts scenario_customers).
  vm_compute. lia.
Defined.

Lemma policies_counted_once_scenario :
  total (map TOTAL_COUNT
              (product_groups scenario_contracts scenario_customers))
  = SQL.COUNT_star
      (filter (has_customer scenario_customers) scenario_contracts).
Proof.
  apply (policies_counted_once scenario_contracts scenario_customers).
  vm_compute. repeat constructor; simpl; intuition discriminate.
Defined.

Lemma custom_query_renders_only_engine_output_scenario :
  (List.length
     [CustomQuery.dataframe (CustomQuery.mk_table ["answer"] [["42"]])]
   <= 1)%nat /\
  (forall t,
      In (CustomQuery.dataframe t)
         [CustomQuery.dataframe (CustomQuery.mk_table ["answer"] [["42"]])] ->
      true = true /\
      sample_engine "SELECT 42 AS answer" = CustomQuery.Returns t) /\
  (forall text,
      In (CustomQuery.error text)
         [CustomQuery.dataframe (CustomQuery.mk_table ["answer"] [["42"]])] ->
      true = true /\
      exists e, sample_engine "SELECT 42 AS answer" = CustomQuery.Raises e /\
                text = "Error: " ++ e).
Proof.
  apply (custom_query_renders_only_engine_output
           sample_engine true "SELECT 42 AS answer").
  reflexivity.
Defined.
